(** * Story sessions: the session state manager of fam-bam

    A shallow embedding of the two revisions of the session module
    ([lib/story-session.ts]): the revision without a [playerIds] field
    ([Module Legacy]) and the revision that maintains it
    ([Module Indexed]).

    Modelling choices:
    - the [sessions] collection is a finite map from session ids to
      documents; a document is a JavaScript object whose properties
      may be absent, so every field is an [option];
    - a transaction body runs as one function on the store (retries and
      interleavings belong to Firestore), and [serverTimestamp()] is an
      explicit argument [now];
    - [activePlayerIndex] is an integer ([Z]): fractional values and
      [NaN] are outside the model, and the arithmetic is that of
      JavaScript where its numbers are exact, that is for integers of
      magnitude up to 2^53; what is proved about [index + 1] is proved
      for stored indices that are not negative, where the sum is
      bounded by the number of players;
    - strings are sequences of UTF-16 code units, [trim] strips the
      ECMAScript white space and line terminators. *)

From Stdlib Require Import ZArith String Ascii List.
From stdpp Require Import gmap list.

Local Open Scope Z_scope.

(** ** JavaScript strings *)

(** A string is its sequence of UTF-16 code units. *)
Abbreviation jsstring := (list N).

Definition js (s : string) : jsstring :=
  List.map N_of_ascii (list_ascii_of_string s).

(** ECMAScript [WhiteSpace] and [LineTerminator] code points, the ones
    [String.prototype.trim] strips.  All of them are in the basic
    plane, so they are single code units. *)
Definition isWhiteSpace (c : N) : bool :=
  ((9 <=? c) && (c <=? 13) || (c =? 32) || (c =? 160) || (c =? 5760)
   || (8192 <=? c) && (c <=? 8202) || (c =? 8232) || (c =? 8233)
   || (c =? 8239) || (c =? 8287) || (c =? 12288) || (c =? 65279))%N.

Fixpoint trimStart (s : jsstring) : jsstring :=
  match s with
  | [] => []
  | c :: r => if isWhiteSpace c then trimStart r else s
  end.

Definition trimEnd (s : jsstring) : jsstring := rev (trimStart (rev s)).

Definition trim (s : jsstring) : jsstring := trimEnd (trimStart s).

(** [Boolean(s)] on a string: false exactly for the empty string. *)
Definition Boolean (s : jsstring) : bool :=
  match s with [] => false | _ => true end.

(** [Array.from(new Set(xs))]: the first occurrence of each value, in
    insertion order. *)
Fixpoint arrayFromSet (xs : list jsstring) : list jsstring :=
  match xs with
  | [] => []
  | x :: r => x :: List.filter (fun y => negb (bool_decide (y = x))) (arrayFromSet r)
  end.

(** [xs.findIndex(f)]: the first index whose element satisfies [f],
    and [-1] when there is none. *)
Fixpoint findIndex {A} (f : A -> bool) (xs : list A) : Z :=
  match xs with
  | [] => -1
  | x :: r => if f x then 0 else
      let i := findIndex f r in if i <? 0 then -1 else i + 1
  end.

(** [a % b] on integers: the remainder has the sign of the dividend. *)
Definition jsRem (a b : Z) : Z := Z.rem a b.

(** ** Data model *)

Record Player := mkPlayer { id : jsstring; name : jsstring }.

Abbreviation Timestamp := nat.

(** A session document as Firestore hands it over: every property may
    be absent.  The same shape serves for [Partial<StorySessionState>]
    seeds and for the payload of a write. *)
Record StorySessionDoc := mkDoc {
  players : option (list Player);
  storyWords : option (list jsstring);
  activePlayerIndex : option Z;
  playerIds : option (list jsstring);
  updatedAt : option Timestamp
}.

Definition emptySession : StorySessionDoc :=
  {| players := Some []; storyWords := Some []; activePlayerIndex := Some 0;
     playerIds := None; updatedAt := None |}.

Definition noFields : StorySessionDoc :=
  {| players := None; storyWords := None; activePlayerIndex := None;
     playerIds := None; updatedAt := None |}.

(** [a ?? b] on an optional property. *)
Definition orElse {A} (o : option A) (d : A) : A :=
  match o with Some x => x | None => d end.

(** Property-wise [{ ...a, ...b }]: what [b] has wins. *)
Definition over {A} (a b : option A) : option A :=
  match b with Some _ => b | None => a end.

Definition spread (a b : StorySessionDoc) : StorySessionDoc :=
  {| players := over (players a) (players b);
     storyWords := over (storyWords a) (storyWords b);
     activePlayerIndex := over (activePlayerIndex a) (activePlayerIndex b);
     playerIds := over (playerIds a) (playerIds b);
     updatedAt := over (updatedAt a) (updatedAt b) |}.

(** The [sessions] collection. *)
Abbreviation Store := (gmap jsstring StorySessionDoc).

(** [setDoc(ref, payload)]: the document becomes the payload. *)
Definition setDoc (sid : jsstring) (payload : StorySessionDoc) (db : Store) : Store :=
  <[sid := payload]> db.

(** [setDoc(ref, payload, { merge: true })] and [transaction.set] with
    [merge]: the payload's properties replace the stored ones, the
    others stay, and an absent document is created. *)
Definition setDocMerge (sid : jsstring) (payload : StorySessionDoc) (db : Store) : Store :=
  <[sid := spread (orElse (db !! sid) noFields) payload]> db.

(** ** Normalization, shared by both revisions *)

Record Normalized := mkNormalized { normPlayers : list Player; activeIndex : Z }.

Definition keepPlayer (player : Player) : bool :=
  Boolean (id player) && Boolean (trim (name player)).

Definition trimName (player : Player) : Player :=
  {| id := id player; name := trim (name player) |}.

Definition cleanPlayers (ps : list Player) : list Player :=
  List.map trimName (List.filter keepPlayer ps).

Definition normalizePlayers (ps : list Player) (activeIdx : Z) : Normalized :=
  let cleaned := cleanPlayers ps in
  let clampedIndex :=
    if negb (Nat.eqb (length cleaned) 0)
    then Z.min activeIdx (Z.of_nat (length cleaned) - 1)
    else 0 in
  {| normPlayers := cleaned; activeIndex := clampedIndex |}.

(** [nextPlayers] of add-player: overwrite the first player with the
    same id where it stands, or push at the end. *)
Definition upsertPlayer (ps : list Player) (player : Player) : list Player :=
  let nextPlayers := ps in
  let existingIndex := findIndex (fun p => bool_decide (id p = id player)) nextPlayers in
  if 0 <=? existingIndex
  then <[Z.to_nat existingIndex := player]> nextPlayers
  else nextPlayers ++ [player].

(** ** The revision without [playerIds] *)

Module Legacy.

Definition ensureSessionExists (now : Timestamp) (sid : jsstring)
    (seed : option StorySessionDoc) (db : Store) : Store :=
  match db !! sid with
  | Some _ => db
  | None =>
      let defaults := spread emptySession (orElse seed noFields) in
      setDoc sid
        (spread defaults
           {| players := None; storyWords := None; activePlayerIndex := None;
              playerIds := None; updatedAt := Some now |})
        db
  end.

(** What [onChange] receives for the current snapshot; [None] when
    the callback is skipped. *)
Definition subscribeToSession (sid : jsstring) (db : Store) : option StorySessionDoc :=
  match db !! sid with
  | None => None
  | Some data =>
      let n := normalizePlayers (orElse (players data) []) (orElse (activePlayerIndex data) 0) in
      Some {| players := Some (normPlayers n);
              storyWords := Some (orElse (storyWords data) []);
              activePlayerIndex := Some (activeIndex n);
              playerIds := None; updatedAt := None |}
  end.

(** The object handed to [transaction.set] by add-player. *)
Definition addPlayerPayload (now : Timestamp) (data : StorySessionDoc) (player : Player)
    : StorySessionDoc :=
  let nextPlayers := upsertPlayer (orElse (players data) []) player in
  let n := normalizePlayers nextPlayers (orElse (activePlayerIndex data) 0) in
  spread data
    {| players := Some (normPlayers n); storyWords := None;
       activePlayerIndex := Some (activeIndex n);
       playerIds := None; updatedAt := Some now |}.

Definition addPlayerToSession (now : Timestamp) (sid : jsstring) (player : Player)
    (db : Store) : Store :=
  let data := orElse (db !! sid) emptySession in
  setDocMerge sid (addPlayerPayload now data player) db.

(** The object handed to [transaction.set] by add-word.  [activeIndex n + 1]
    is the exact sum, as it is in JavaScript up to 2^53. *)
Definition addWordPayload (now : Timestamp) (data : StorySessionDoc) (word : jsstring)
    : StorySessionDoc :=
  let n := normalizePlayers (orElse (players data) []) (orElse (activePlayerIndex data) 0) in
  let nextWords := orElse (storyWords data) [] ++ [trim word] in
  let nextActiveIndex :=
    if negb (Nat.eqb (length (normPlayers n)) 0)
    then jsRem (activeIndex n + 1) (Z.of_nat (length (normPlayers n)))
    else 0 in
  spread data
    {| players := Some (normPlayers n); storyWords := Some nextWords;
       activePlayerIndex := Some nextActiveIndex;
       playerIds := None; updatedAt := Some now |}.

Definition addWordToSession (now : Timestamp) (sid : jsstring) (word : jsstring)
    (db : Store) : Store :=
  let data := orElse (db !! sid) emptySession in
  setDocMerge sid (addWordPayload now data word) db.

Definition resetSessionStory (now : Timestamp) (sid : jsstring) (db : Store) : Store :=
  setDocMerge sid
    {| players := None; storyWords := Some []; activePlayerIndex := Some 0;
       playerIds := None; updatedAt := Some now |}
    db.

End Legacy.

(** ** The revision that maintains [playerIds] *)

Module Indexed.

Definition mergePlayerIds (ps : list Player) : list jsstring :=
  arrayFromSet (List.filter Boolean (List.map id ps)).

Definition ensureSessionExists (now : Timestamp) (sid : jsstring)
    (seed : option StorySessionDoc) (db : Store) : Store :=
  match db !! sid with
  | Some _ => db
  | None =>
      let defaults := spread emptySession (orElse seed noFields) in
      setDoc sid
        (spread defaults
           {| players := None; storyWords := None; activePlayerIndex := None;
              playerIds := Some (mergePlayerIds (orElse (players defaults) []));
              updatedAt := Some now |})
        db
  end.

Definition subscribeToSession (sid : jsstring) (db : Store) : option StorySessionDoc :=
  match db !! sid with
  | None => None
  | Some data =>
      let n := normalizePlayers (orElse (players data) []) (orElse (activePlayerIndex data) 0) in
      Some {| players := Some (normPlayers n);
              storyWords := Some (orElse (storyWords data) []);
              activePlayerIndex := Some (activeIndex n);
              playerIds := Some (mergePlayerIds (normPlayers n));
              updatedAt := None |}
  end.

Definition addPlayerPayload (now : Timestamp) (data : StorySessionDoc) (player : Player)
    : StorySessionDoc :=
  let nextPlayers := upsertPlayer (orElse (players data) []) player in
  let n := normalizePlayers nextPlayers (orElse (activePlayerIndex data) 0) in
  let ids := mergePlayerIds (normPlayers n) in
  spread data
    {| players := Some (normPlayers n); storyWords := None;
       activePlayerIndex := Some (activeIndex n);
       playerIds := Some ids; updatedAt := Some now |}.

Definition addPlayerToSession (now : Timestamp) (sid : jsstring) (player : Player)
    (db : Store) : Store :=
  let data := orElse (db !! sid) emptySession in
  setDocMerge sid (addPlayerPayload now data player) db.

(** The object handed to [transaction.set] by add-word; the sum is
    exact, as in the older revision. *)
Definition addWordPayload (now : Timestamp) (data : StorySessionDoc) (word : jsstring)
    : StorySessionDoc :=
  let n := normalizePlayers (orElse (players data) []) (orElse (activePlayerIndex data) 0) in
  let nextWords := orElse (storyWords data) [] ++ [trim word] in
  let nextActiveIndex :=
    if negb (Nat.eqb (length (normPlayers n)) 0)
    then jsRem (activeIndex n + 1) (Z.of_nat (length (normPlayers n)))
    else 0 in
  spread data
    {| players := Some (normPlayers n); storyWords := Some nextWords;
       activePlayerIndex := Some nextActiveIndex;
       playerIds := Some (mergePlayerIds (normPlayers n));
       updatedAt := Some now |}.

Definition addWordToSession (now : Timestamp) (sid : jsstring) (word : jsstring)
    (db : Store) : Store :=
  let data := orElse (db !! sid) emptySession in
  setDocMerge sid (addWordPayload now data word) db.

Definition resetSessionStory (now : Timestamp) (sid : jsstring) (db : Store) : Store :=
  setDocMerge sid
    {| players := None; storyWords := Some []; activePlayerIndex := Some 0;
       playerIds := Some (mergePlayerIds []); updatedAt := Some now |}
    db.

(** The session summary returned by [findSession] and built by
    [formatSessionDoc]. *)
Record SessionSummary := mkSummary {
  sessionId : jsstring;
  sessionPlayers : list Player;
  sessionStoryWords : list jsstring;
  sessionActivePlayerIndex : Z;
  sessionUpdatedAt : option Timestamp
}.

Definition formatSessionDoc (docSnapshot : jsstring * StorySessionDoc) : SessionSummary :=
  let data := snd docSnapshot in
  let n := normalizePlayers (orElse (players data) []) (orElse (activePlayerIndex data) 0) in
  {| sessionId := fst docSnapshot;
     sessionPlayers := normPlayers n;
     sessionStoryWords := orElse (storyWords data) [];
     sessionActivePlayerIndex := activeIndex n;
     sessionUpdatedAt := updatedAt data |}.

Definition findSession (sid : jsstring) (db : Store) : option SessionSummary :=
  match db !! sid with
  | None => None
  | Some data => Some (formatSessionDoc (sid, data))
  end.

(** [getDocs(sessionsRef)]: every document of the collection.  The
    order in which Firestore lists them is not modelled. *)
Definition getDocs (db : Store) : list (jsstring * StorySessionDoc) :=
  map_to_list db.

(** [where('playerIds', 'array-contains', userId)]. *)
Definition arrayContains (userId : jsstring) (docSnapshot : jsstring * StorySessionDoc) : bool :=
  match playerIds (snd docSnapshot) with
  | Some ids => existsb (fun x => bool_decide (x = userId)) ids
  | None => false
  end.

Definition queryPlayerIds (userId : jsstring) (db : Store) : list (jsstring * StorySessionDoc) :=
  List.filter (arrayContains userId) (getDocs db).

Definition hasPlayer (userId : jsstring) (session : SessionSummary) : bool :=
  existsb (fun player => bool_decide (id player = userId)) (sessionPlayers session).

Definition getSessionsForUser (userId : jsstring) (db : Store) : list SessionSummary :=
  let results := queryPlayerIds userId db in
  let sessions := List.map formatSessionDoc results in
  if Nat.eqb (length sessions) 0
  then List.filter (hasPlayer userId) (List.map formatSessionDoc (getDocs db))
  else sessions.

End Indexed.

(** ** The invariants of the data model *)

(** What the cleaned list holds: a non-empty id and a non-empty name
    that is its own trimmed form. *)
Definition wellFormed (p : Player) : Prop :=
  id p <> [] /\ trim (name p) <> [] /\ trim (name p) = name p.

(** The index invariant of the data model: a valid position in a
    non-empty player list, and 0 for an empty one. *)
Definition indexInRange (n : Normalized) : Prop :=
  match normPlayers n with
  | [] => activeIndex n = 0
  | _ :: _ => 0 <= activeIndex n < Z.of_nat (length (normPlayers n))
  end.

(** The membership invariant of the data model: [playerIds] lists,
    without repetition, exactly the ids that occur in [players]. *)
Definition playerIdsInSync (doc : StorySessionDoc) : Prop :=
  exists ids,
    playerIds doc = Some ids
    /\ List.NoDup ids
    /\ forall x, In x ids <-> exists q, In q (orElse (players doc) []) /\ id q = x.

(** The player list a session holds in the store. *)
Definition storedPlayers (db : Store) (sid : jsstring) : list Player :=
  orElse (players (orElse (db !! sid) noFields)) [].

(** ** Sample data *)

Definition amy : Player := {| id := js "u1"; name := js " Amy " |}.
Definition bob : Player := {| id := js "u2"; name := js "Bob" |}.
Definition amyTrimmed : Player := {| id := js "u1"; name := js "Amy" |}.

Definition blankPlayer : Player := {| id := []; name := js "  " |}.

(** A session with two players, five words and the index in sync. *)
Definition playedSession : StorySessionDoc :=
  {| players := Some [amyTrimmed; bob];
     storyWords := Some [js "once"; js "upon"; js "a"; js "time"; js "there"];
     activePlayerIndex := Some 1;
     playerIds := Some [js "u1"; js "u2"];
     updatedAt := Some 5%nat |}.

(** A document written before [playerIds] existed. *)
Definition legacySession : StorySessionDoc :=
  {| players := Some [{| id := js "u9"; name := js "Zoe" |}; bob];
     storyWords := Some [js "cat"];
     activePlayerIndex := Some 1;
     playerIds := None;
     updatedAt := Some 2%nat |}.

Definition sharedStory : jsstring := js "shared-story".

(** Two players, no word yet, the first player's turn. *)
Definition twoPlayers : StorySessionDoc :=
  {| players := Some [amyTrimmed; bob]; storyWords := Some [];
     activePlayerIndex := Some 0; playerIds := Some [js "u1"; js "u2"];
     updatedAt := Some 1%nat |}.

(** The index and the words a session holds in the store, as every
    reader takes them ([data.activePlayerIndex ?? 0],
    [data.storyWords ?? []]). *)
Definition storedIndex (db : Store) (sid : jsstring) : Z :=
  orElse (activePlayerIndex (orElse (db !! sid) noFields)) 0.

Definition storedWords (db : Store) (sid : jsstring) : list jsstring :=
  orElse (storyWords (orElse (db !! sid) noFields)) [].

(** ** Several words in a row *)

(** Successive add-word calls, one per word, with consecutive time
    stamps. *)
Fixpoint addWordsToSession (now : Timestamp) (sid : jsstring) (ws : list jsstring)
    (db : Store) : Store :=
  match ws with
  | [] => db
  | w :: r => addWordsToSession (S now) sid r (Indexed.addWordToSession now sid w db)
  end.

(** ** The screens *)

(** The Firebase user, as far as the screens read it. *)
Record User := mkUser {
  uid : jsstring;
  displayName : option jsstring;
  email : option jsstring
}.

(** [a || b] on values that are a string or [null]: [a] when it is a
    non-empty string, [b] otherwise. *)
Definition jsOr (a b : option jsstring) : option jsstring :=
  match a with
  | Some (_ :: _) => a
  | _ => b
  end.

(** [a || 'literal']. *)
Definition jsOrString (a : option jsstring) (b : jsstring) : jsstring :=
  match a with
  | Some (c :: r) => c :: r
  | _ => b
  end.

(** [/\s/.test(s)]: the class [\s] is the white space that [trim]
    strips. *)
Definition hasWhiteSpace (s : jsstring) : bool := existsb isWhiteSpace s.

(** [xs[i]] for an integer [i]: [undefined] out of range. *)
Definition arrayAt {A} (xs : list A) (i : Z) : option A :=
  if i <? 0 then None else xs !! Z.to_nat i.

(** The story screen ([HomeScreen] on the shared story and
    [StoryDetailScreen] on a story id): the state that the subscription
    and the inputs fill, and the handlers. *)
Module StoryScreen.

Record State := mkState {
  viewPlayers : list Player;
  viewActivePlayerIndex : Z;
  viewStoryWords : list jsstring;
  wordInput : jsstring;
  newPlayerInput : jsstring;
  user : option User
}.

Definition hasPlayers (st : State) : bool := (0 <? length (viewPlayers st))%nat.

Definition activePlayer (st : State) : option Player :=
  if hasPlayers st then arrayAt (viewPlayers st) (viewActivePlayerIndex st) else None.

Definition isActivePlayer (st : State) : bool :=
  match user st, activePlayer st with
  | Some u, Some p => bool_decide (id p = uid u)
  | _, _ => false
  end.

Definition sanitizedWord (st : State) : jsstring := trim (wordInput st).

Definition isSingleWord (st : State) : bool :=
  Boolean (sanitizedWord st) && negb (hasWhiteSpace (sanitizedWord st)).

Definition canSubmitWord (st : State) : bool :=
  hasPlayers st && isSingleWord st && isActivePlayer st.

Definition canAddPlayer (st : State) : bool :=
  match user st with Some _ => true | None => false end.

(** The [onChange] callback of the subscription. *)
Definition onChange (session : StorySessionDoc) (st : State) : State :=
  {| viewPlayers := orElse (players session) [];
     viewActivePlayerIndex := orElse (activePlayerIndex session) 0;
     viewStoryWords := orElse (storyWords session) [];
     wordInput := wordInput st;
     newPlayerInput := newPlayerInput st;
     user := user st |}.

(** The screen after the snapshot of the store has been delivered. *)
Definition deliver (sid : jsstring) (db : Store) (st : State) : State :=
  match Indexed.subscribeToSession sid db with
  | Some session => onChange session st
  | None => st
  end.

Definition handleAddWord (now : Timestamp) (sid : jsstring) (st : State) (db : Store)
    : State * Store :=
  if negb (canSubmitWord st) then (st, db)
  else
    let nextWord := sanitizedWord st in
    ({| viewPlayers := viewPlayers st;
        viewActivePlayerIndex := viewActivePlayerIndex st;
        viewStoryWords := viewStoryWords st;
        wordInput := [];
        newPlayerInput := newPlayerInput st;
        user := user st |},
     Indexed.addWordToSession now sid nextWord db).

Definition playerName (st : State) (u : User) : jsstring :=
  jsOrString (jsOr (jsOr (Some (trim (newPlayerInput st))) (displayName u)) (email u))
    (js "Player").

Definition handleAddPlayer (now : Timestamp) (sid : jsstring) (st : State) (db : Store)
    : State * Store :=
  match user st with
  | None => (st, db)
  | Some u =>
      if negb (canAddPlayer st) then (st, db)
      else
        let name := playerName st u in
        ({| viewPlayers := viewPlayers st;
            viewActivePlayerIndex := viewActivePlayerIndex st;
            viewStoryWords := viewStoryWords st;
            wordInput := wordInput st;
            newPlayerInput := [];
            user := user st |},
         Indexed.addPlayerToSession now sid {| id := uid u; name := name |} db)
  end.

Definition handleResetStory (now : Timestamp) (sid : jsstring) (db : Store) : Store :=
  Indexed.resetSessionStory now sid db.

(** The seed both screens pass to ensure-exists. *)
Definition bootstrapSeed : StorySessionDoc :=
  {| players := Some []; storyWords := Some []; activePlayerIndex := Some 0;
     playerIds := None; updatedAt := None |}.

(** [bootstrap] of both story screens, while the screen is mounted:
    ensure-exists with the seed, then the first delivery of the
    subscription. *)
Definition bootstrap (now : Timestamp) (sid : jsstring) (st : State) (db : Store)
    : State * Store :=
  let db1 := Indexed.ensureSessionExists now sid (Some bootstrapSeed) db in
  (deliver sid db1 st, db1).

End StoryScreen.

(** The discover screen: search a story by id and join it. *)
Module DiscoverScreen.

Inductive SearchResult :=
| NotSearched
| Found (session : Indexed.SessionSummary)
| NoStory.

Definition handleSearch (sessionIdInput : jsstring) (db : Store) : SearchResult :=
  let trimmed := trim sessionIdInput in
  if negb (Boolean trimmed) then NotSearched
  else
    match Indexed.findSession trimmed db with
    | Some found => Found found
    | None => NoStory
    end.

Definition joinName (u : User) : jsstring :=
  jsOrString (jsOr (displayName u) (email u)) (js "Player").

Definition handleJoin (now : Timestamp) (user : option User)
    (session : option Indexed.SessionSummary) (db : Store) : Store :=
  match user, session with
  | Some u, Some s =>
      let db1 := Indexed.ensureSessionExists now (Indexed.sessionId s) None db in
      Indexed.addPlayerToSession (S now) (Indexed.sessionId s)
        {| id := uid u; name := joinName u |} db1
  | _, _ => db
  end.

End DiscoverScreen.

(** The first home screen, which keeps the game in local state: the
    players are plain names. *)
Module LocalGame.

Record State := mkState {
  players : list jsstring;
  activePlayerIndex : Z;
  storyWords : list jsstring;
  wordInput : jsstring;
  newPlayerInput : jsstring
}.

Definition initialPlayers : list jsstring := [js "Avery"; js "Jordan"; js "Noor"].

Definition initial : State :=
  {| players := initialPlayers; activePlayerIndex := 0; storyWords := [];
     wordInput := []; newPlayerInput := [] |}.

Definition hasPlayers (st : State) : bool := (0 <? length (players st))%nat.

Definition canSubmitWord (st : State) : bool :=
  hasPlayers st && Boolean (trim (wordInput st)).

Definition canAddPlayer (st : State) : bool := Boolean (trim (newPlayerInput st)).

Definition handleAddWord (st : State) : State :=
  if negb (canSubmitWord st) then st
  else
    {| players := players st;
       activePlayerIndex :=
         if negb (Nat.eqb (length (players st)) 0)
         then jsRem (activePlayerIndex st + 1) (Z.of_nat (length (players st)))
         else 0;
       storyWords := storyWords st ++ [trim (wordInput st)];
       wordInput := [];
       newPlayerInput := newPlayerInput st |}.

Definition handleAddPlayer (st : State) : State :=
  if negb (canAddPlayer st) then st
  else
    {| players := players st ++ [trim (newPlayerInput st)];
       activePlayerIndex := activePlayerIndex st;
       storyWords := storyWords st;
       wordInput := wordInput st;
       newPlayerInput := [] |}.

Definition handleResetStory (st : State) : State :=
  {| players := players st; activePlayerIndex := 0; storyWords := [];
     wordInput := wordInput st; newPlayerInput := newPlayerInput st |}.

(** What the user can do on the screen. *)
Inductive Event :=
| SetWordInput (text : jsstring)
| SetNewPlayerInput (text : jsstring)
| AddWord
| AddPlayer
| ResetStory.

Definition step (st : State) (e : Event) : State :=
  match e with
  | SetWordInput text =>
      {| players := players st; activePlayerIndex := activePlayerIndex st;
         storyWords := storyWords st; wordInput := text;
         newPlayerInput := newPlayerInput st |}
  | SetNewPlayerInput text =>
      {| players := players st; activePlayerIndex := activePlayerIndex st;
         storyWords := storyWords st; wordInput := wordInput st;
         newPlayerInput := text |}
  | AddWord => handleAddWord st
  | AddPlayer => handleAddPlayer st
  | ResetStory => handleResetStory st
  end.

Definition run (st : State) (es : list Event) : State := fold_left step es st.

(** A text that is not empty and is its own trimmed form. *)
Definition trimmedText (s : jsstring) : Prop := s <> [] /\ trim s = s.

(** What the screen keeps true: the turn is with one of the players,
    who are the initial three and the ones added, and it is with the
    first player as long as the story is empty. *)
Definition valid (st : State) : Prop :=
  0 <= activePlayerIndex st < Z.of_nat (length (players st))
  /\ (exists added, players st = initialPlayers ++ added /\ Forall trimmedText added)
  /\ Forall trimmedText (storyWords st)
  /\ (storyWords st = [] -> activePlayerIndex st = 0).

End LocalGame.

(** ** The Firebase handle ([lib/firebase.ts]) *)

Module Firebase.

(** [firebaseConfig]: each value is an environment variable, which may
    be unset. *)
Record FirebaseOptions := mkOptions {
  apiKey : option jsstring;
  authDomain : option jsstring;
  projectId : option jsstring;
  storageBucket : option jsstring;
  messagingSenderId : option jsstring;
  appId : option jsstring
}.

(** [Object.entries(firebaseConfig)], in the order of the literal. *)
Definition entries (c : FirebaseOptions) : list (jsstring * option jsstring) :=
  [ (js "apiKey", apiKey c); (js "authDomain", authDomain c);
    (js "projectId", projectId c); (js "storageBucket", storageBucket c);
    (js "messagingSenderId", messagingSenderId c); (js "appId", appId c) ].

(** [!value] on a string that may be undefined. *)
Definition falsy (v : option jsstring) : bool :=
  match v with
  | Some (_ :: _) => false
  | _ => true
  end.

Definition missingKeys (c : FirebaseOptions) : list jsstring :=
  List.map fst (List.filter (fun kv => falsy (snd kv)) (entries c)).

(** [keys.join(sep)]. *)
Fixpoint join (sep : jsstring) (keys : list jsstring) : jsstring :=
  match keys with
  | [] => []
  | [k] => k
  | k :: r => k ++ sep ++ join sep r
  end.

Definition missingConfigMessage (keys : list jsstring) : jsstring :=
  js "Missing Firebase config. Add these env vars: " ++ join (js ", ") keys
  ++ js " (prefixed with EXPO_PUBLIC_)".

(** An app is known by the options it was initialized with. *)
Record FirebaseApp := mkApp { options : FirebaseOptions }.

(** The module variable [appInstance] and the SDK's default app, if
    one has been initialized ([getApps()] holds at most that app: the
    repository never names an app). *)
Record Runtime := mkRuntime {
  appInstance : option FirebaseApp;
  sdkApp : option FirebaseApp
}.

Inductive Outcome :=
| Returned (app : FirebaseApp)
| Thrown (message : jsstring).

Definition ensureApp (c : FirebaseOptions) (rt : Runtime) : Outcome * Runtime :=
  match appInstance rt with
  | Some app => (Returned app, rt)
  | None =>
      let missing := missingKeys c in
      if negb (Nat.eqb (length missing) 0)
      then (Thrown (missingConfigMessage missing), rt)
      else
        let app := match sdkApp rt with
                   | Some existing => existing
                   | None => {| options := c |}
                   end in
        (Returned app, {| appInstance := Some app; sdkApp := Some app |})
  end.

End Firebase.

(** * Properties *)

(** ** Trimming *)

Section Trimming.

Lemma trimStart_head c r s : trimStart s = c :: r -> isWhiteSpace c = false.
Proof.
  induction s as [|d s IH]; simpl; [discriminate|].
  destruct (isWhiteSpace d) eqn:E; [exact IH|].
  intros H; injection H as -> _; exact E.
Qed.

Lemma trimStart_suffix s : exists k, s = k ++ trimStart s.
Proof.
  induction s as [|d s [k IH]]; simpl; [by exists []|].
  destruct (isWhiteSpace d).
  - exists (d :: k). simpl. by rewrite <- IH.
  - by exists [].
Qed.

Lemma trimStart_fixed c r : isWhiteSpace c = false -> trimStart (c :: r) = c :: r.
Proof. intros H; simpl; by rewrite H. Qed.

Lemma trimStart_idem s : trimStart (trimStart s) = trimStart s.
Proof.
  destruct (trimStart s) as [|c r] eqn:E; [done|].
  apply trimStart_fixed. by eapply trimStart_head.
Qed.

(** A trimmed string starts as the left-trimmed one does. *)
Lemma trim_prefix s : exists k, trimStart s = trim s ++ k.
Proof.
  unfold trim, trimEnd.
  destruct (trimStart_suffix (rev (trimStart s))) as [k Hk].
  exists (rev k).
  rewrite <- rev_app_distr, <- Hk. by rewrite rev_involutive.
Qed.

Lemma trimStart_trim s : trimStart (trim s) = trim s.
Proof.
  destruct (trim_prefix s) as [k Hk].
  destruct (trim s) as [|c r]; [done|].
  apply trimStart_fixed. by eapply trimStart_head.
Qed.

Lemma trim_idem s : trim (trim s) = trim s.
Proof.
  unfold trim at 1. rewrite trimStart_trim.
  unfold trim, trimEnd. rewrite rev_involutive, trimStart_idem. done.
Qed.

End Trimming.

(** ** Cleaning the player list *)

Section Cleaning.

Lemma keepPlayer_trimName p : keepPlayer (trimName p) = keepPlayer p.
Proof. unfold keepPlayer, trimName; simpl. by rewrite trim_idem. Qed.

Lemma trimName_idem p : trimName (trimName p) = trimName p.
Proof. unfold trimName; simpl. by rewrite trim_idem. Qed.

Lemma cleanPlayers_app l1 l2 :
  cleanPlayers (l1 ++ l2) = cleanPlayers l1 ++ cleanPlayers l2.
Proof. unfold cleanPlayers. by rewrite List.filter_app, List.map_app. Qed.

Lemma cleanPlayers_idem ps : cleanPlayers (cleanPlayers ps) = cleanPlayers ps.
Proof.
  unfold cleanPlayers.
  induction ps as [|p ps IH]; simpl; [done|].
  destruct (keepPlayer p) eqn:K; simpl; [|exact IH].
  rewrite keepPlayer_trimName, K. simpl. by rewrite trimName_idem, IH.
Qed.

Lemma Boolean_true s : Boolean s = true <-> s <> [].
Proof. destruct s; simpl; split; congruence. Qed.

Lemma keepPlayer_true p :
  keepPlayer p = true <-> id p <> [] /\ trim (name p) <> [].
Proof.
  unfold keepPlayer. rewrite andb_true_iff, !Boolean_true. done.
Qed.

Lemma cleanPlayers_wellFormed ps : Forall wellFormed (cleanPlayers ps).
Proof.
  unfold cleanPlayers. apply Forall_forall. intros q Hq.
  apply list_elem_of_In, List.in_map_iff in Hq as (p & <- & Hp).
  apply List.filter_In in Hp as [_ Hp]. apply keepPlayer_true in Hp as [Hi Hn].
  unfold wellFormed, trimName; simpl. by rewrite trim_idem.
Qed.

Lemma cleanPlayers_fixed ps : Forall wellFormed ps -> cleanPlayers ps = ps.
Proof.
  unfold cleanPlayers.
  induction 1 as [|p ps (Hi & Hn & Ht) _ IH]; simpl; [done|].
  assert (keepPlayer p = true) as -> by by apply keepPlayer_true.
  simpl. rewrite IH. f_equal. destruct p as [i n]; unfold trimName; simpl in *.
  by rewrite Ht.
Qed.

End Cleaning.

(** ** The active index after normalization *)

Section ActiveIndex.

Lemma length_eqb_nil {A} (l : list A) :
  negb (Nat.eqb (length l) 0) = match l with [] => false | _ => true end.
Proof. by destruct l. Qed.

Lemma normalizePlayers_players ps i : normPlayers (normalizePlayers ps i) = cleanPlayers ps.
Proof. done. Qed.

Lemma normalizePlayers_index ps i :
  activeIndex (normalizePlayers ps i) =
    match cleanPlayers ps with
    | [] => 0
    | _ :: _ => Z.min i (Z.of_nat (length (cleanPlayers ps)) - 1)
    end.
Proof.
  unfold normalizePlayers; simpl. rewrite length_eqb_nil.
  by destruct (cleanPlayers ps).
Qed.

End ActiveIndex.

(** C1, as stated, fails: with one player and a stored index of -1 the
    normalized index is -1, which is not a position in the list. *)
Lemma normalize_negative_index_escapes :
  normPlayers (normalizePlayers [amy] (-1)) = [{| id := js "u1"; name := js "Amy" |}]
  /\ activeIndex (normalizePlayers [amy] (-1)) = -1
  /\ ~ indexInRange (normalizePlayers [amy] (-1)).
Proof.
  split; [reflexivity|]. split; [reflexivity|].
  unfold indexInRange. vm_compute. intros [H _]. by apply H.
Qed.

(** C1, amended: normalization bounds the index from above only.  For a
    non-empty cleaned list the result is [min(index, len - 1)], so it
    is below [len] for every input and a valid position whenever the
    input index is not below 0; a negative input comes back unchanged.
    For an empty cleaned list the result is 0. *)
Theorem normalize_index_bounded_above (ps : list Player) (i : Z) :
  let n := normalizePlayers ps i in
  (normPlayers n = [] -> activeIndex n = 0)
  /\ (normPlayers n <> [] ->
        activeIndex n = Z.min i (Z.of_nat (length (normPlayers n)) - 1)
        /\ activeIndex n < Z.of_nat (length (normPlayers n)))
  /\ (0 <= i -> indexInRange n)
  /\ (i < 0 -> normPlayers n <> [] -> activeIndex n = i).
Proof.
  intros n. subst n. unfold indexInRange.
  rewrite normalizePlayers_index, normalizePlayers_players.
  destruct (cleanPlayers ps) as [|p l] eqn:E.
  - repeat split; try done.
  - set (len := Z.of_nat (length (p :: l))).
    assert (1 <= len) by (subst len; simpl; lia).
    repeat split; intros; try done; lia.
Qed.

Lemma normalize_index_bounded_above_witness :
  indexInRange (normalizePlayers [amy; bob] 7)
  /\ activeIndex (normalizePlayers [amy; bob] 7) = 1.
Proof.
  split.
  - apply (normalize_index_bounded_above [amy; bob] 7). lia.
  - reflexivity.
Defined.

(** ** Idempotence *)

(** C9: normalizing the output of normalization changes nothing,
    neither the player list nor the index. *)
Theorem normalizePlayers_idempotent (ps : list Player) (i : Z) :
  let n := normalizePlayers ps i in
  normalizePlayers (normPlayers n) (activeIndex n) = n.
Proof.
  intros n. subst n. unfold normalizePlayers at 1.
  rewrite normalizePlayers_players, cleanPlayers_idem.
  unfold normalizePlayers. f_equal.
  rewrite !length_eqb_nil. destruct (cleanPlayers ps) as [|p l]; [done|].
  apply Z.min_l, Z.le_min_r.
Qed.

(** ** Writes to the store *)

Section Writes.

Lemma lookup_setDocMerge (sid : jsstring) (payload : StorySessionDoc) (db : Store) :
  setDocMerge sid payload db !! sid = Some (spread (orElse (db !! sid) noFields) payload).
Proof. unfold setDocMerge. by rewrite lookup_insert_eq. Qed.

Lemma lookup_setDocMerge_ne (sid sid' : jsstring) (payload : StorySessionDoc) (db : Store) :
  sid <> sid' -> setDocMerge sid payload db !! sid' = db !! sid'.
Proof. intros H. unfold setDocMerge. by rewrite lookup_insert_ne. Qed.

Lemma jsRem_congruent a b : (jsRem a b) mod b = a mod b.
Proof.
  unfold jsRem. destruct (Z.eq_dec b 0) as [->|Hb].
  - by rewrite Z.rem_0_r_ext.
  - rewrite (Z.rem_eq a b Hb).
    replace (a - b * (a ÷ b)) with (a + (- (a ÷ b)) * b) by lia.
    apply Z_mod_plus_full.
Qed.

Lemma jsRem_nonneg a b : 0 <= a -> 0 < b -> jsRem a b = a mod b.
Proof. intros. unfold jsRem. by apply Z.rem_mod_nonneg. Qed.

End Writes.




(** ** The membership index *)

Section PlayerIds.

Lemma arrayFromSet_In xs x : In x (arrayFromSet xs) <-> In x xs.
Proof.
  induction xs as [|y r IH]; simpl; [done|].
  rewrite List.filter_In, IH, negb_true_iff, bool_decide_eq_false.
  destruct (decide (x = y)) as [->|Hne]; [tauto|].
  split; [tauto|]. intros [->|?]; [done|tauto].
Qed.

Lemma arrayFromSet_NoDup xs : List.NoDup (arrayFromSet xs).
Proof.
  induction xs as [|y r IH]; simpl; constructor.
  - rewrite List.filter_In, negb_true_iff, bool_decide_eq_false. tauto.
  - by apply List.NoDup_filter.
Qed.

Lemma mergePlayerIds_In ps x :
  In x (Indexed.mergePlayerIds ps) <-> x <> [] /\ exists q, In q ps /\ id q = x.
Proof.
  unfold Indexed.mergePlayerIds.
  rewrite arrayFromSet_In, List.filter_In, List.in_map_iff, Boolean_true.
  split.
  - intros [(q & <- & Hq) Hx]. eauto.
  - intros [Hx (q & Hq & <-)]. eauto.
Qed.

Lemma mergePlayerIds_wellFormed ps x :
  Forall wellFormed ps ->
  In x (Indexed.mergePlayerIds ps) <-> exists q, In q ps /\ id q = x.
Proof.
  intros Hwf. rewrite mergePlayerIds_In. split; [tauto|].
  intros (q & Hq & <-). split; [|eauto].
  rewrite Forall_forall in Hwf. apply (Hwf q). by apply list_elem_of_In.
Qed.

Lemma mergePlayerIds_inSync ps words idx stamp :
  Forall wellFormed ps ->
  playerIdsInSync
    {| players := Some ps; storyWords := words; activePlayerIndex := idx;
       playerIds := Some (Indexed.mergePlayerIds ps); updatedAt := stamp |}.
Proof.
  intros Hwf. exists (Indexed.mergePlayerIds ps). simpl.
  split; [done|]. split; [apply arrayFromSet_NoDup|].
  intros x. by apply mergePlayerIds_wellFormed.
Qed.

End PlayerIds.

(** ** Adding a player *)

Section Upsert.

Context {A : Type} (f : A -> bool).

Lemma findIndex_none (l : list A) :
  Forall (fun x => f x = false) l -> findIndex f l = -1.
Proof.
  induction 1 as [|x r Hx _ IH]; simpl; [done|]. by rewrite Hx, IH.
Qed.

Lemma findIndex_first (l1 : list A) (q : A) (l2 : list A) :
  Forall (fun x => f x = false) l1 -> f q = true ->
  findIndex f (l1 ++ q :: l2) = Z.of_nat (length l1).
Proof.
  intros Hall Hq. induction Hall as [|x r Hx _ IH]; simpl.
  - by rewrite Hq.
  - rewrite Hx, IH.
    destruct (Z.ltb_spec (Z.of_nat (length r)) 0); lia.
Qed.

(** Either nothing satisfies [f], or the list splits at the first
    element that does. *)
Lemma first_match_split (l : list A) :
  Forall (fun x => f x = false) l
  \/ exists l1 q l2,
       l = l1 ++ q :: l2 /\ f q = true /\ Forall (fun x => f x = false) l1.
Proof.
  induction l as [|x r IH]; [by left|].
  destruct (f x) eqn:Fx.
  - right. by exists [], x, r.
  - destruct IH as [Hall|(l1 & q & l2 & -> & Fq & Hall)].
    + left. by constructor.
    + right. exists (x :: l1), q, l2. repeat split; [done|]. by constructor.
Qed.

End Upsert.

Section UpsertPlayer.

Lemma sameId_false (p : Player) (l : list Player) :
  Forall (fun q => id q <> id p) l ->
  Forall (fun q => bool_decide (id q = id p) = false) l.
Proof.
  intros H. eapply Forall_impl; [exact H|]. intros q Hq. by apply bool_decide_eq_false.
Qed.

(** A new id: the player is pushed at the end. *)
Lemma upsertPlayer_fresh ps p :
  Forall (fun q => id q <> id p) ps -> upsertPlayer ps p = ps ++ [p].
Proof.
  intros H. unfold upsertPlayer. by rewrite findIndex_none by by apply sameId_false.
Qed.

(** A known id: the first holder is replaced where it stands, which
    changes nothing but its name. *)
Lemma upsertPlayer_existing l1 q l2 p :
  id q = id p -> Forall (fun q' => id q' <> id p) l1 ->
  upsertPlayer (l1 ++ q :: l2) p = l1 ++ {| id := id q; name := name p |} :: l2.
Proof.
  intros Hq Hall. unfold upsertPlayer.
  rewrite findIndex_first; [|by apply sameId_false|by apply bool_decide_eq_true].
  destruct (Z.leb_spec 0 (Z.of_nat (length l1))); [|lia].
  rewrite Nat2Z.id.
  replace (length l1) with (length l1 + 0)%nat by lia.
  rewrite insert_app_r. simpl. rewrite Hq. by destruct p.
Qed.

Lemma upsertPlayer_cases ps p :
  (Forall (fun q => id q <> id p) ps /\ upsertPlayer ps p = ps ++ [p])
  \/ (exists l1 q l2,
        ps = l1 ++ q :: l2 /\ id q = id p /\ Forall (fun q' => id q' <> id p) l1
        /\ upsertPlayer ps p = l1 ++ {| id := id q; name := name p |} :: l2).
Proof.
  assert (forall l, Forall (fun q => bool_decide (id q = id p) = false) l ->
                    Forall (fun q => id q <> id p) l) as Hback.
  { intros l H. eapply Forall_impl; [exact H|]. intros q Hq. by apply bool_decide_eq_false in Hq. }
  destruct (first_match_split (fun q => bool_decide (id q = id p)) ps)
    as [Hall|(l1 & q & l2 & -> & Fq & Hall)].
  - left. split; [by apply Hback|]. by apply upsertPlayer_fresh, Hback.
  - right. exists l1, q, l2. apply bool_decide_eq_true in Fq.
    split; [done|]. split; [done|]. split; [by apply Hback|].
    by apply upsertPlayer_existing; [|apply Hback].
Qed.

(** On a list that is already clean, with a player that passes the
    filter, cleaning the upserted list only trims the new name. *)
Lemma cleanPlayers_middle l1 p l2 :
  Forall wellFormed (l1 ++ l2) -> keepPlayer p = true ->
  cleanPlayers (l1 ++ p :: l2) = l1 ++ trimName p :: l2.
Proof.
  intros Hwf Hp. apply Forall_app in Hwf as [H1 H2].
  change (p :: l2) with ([p] ++ l2).
  rewrite !cleanPlayers_app, (cleanPlayers_fixed l1 H1), (cleanPlayers_fixed l2 H2).
  unfold cleanPlayers at 1; simpl. by rewrite Hp.
Qed.

End UpsertPlayer.

(** C3: add-player is an upsert keyed by the player's id.  Either no
    stored player has the id and the player is pushed at the end, or
    the first stored player with the id keeps its place and gets the
    new name.  The list is then normalized, the index is bounded by the
    new length, and [playerIds] is written as the set of ids of the
    players that are written.  On a stored list that is already clean
    and a player that passes the filter, the written list is the stored
    one with the trimmed player at the end, or in the place of the
    holder of its id. *)
Theorem addPlayer_upserts_and_indexes
    (now : Timestamp) (sid : jsstring) (p : Player) (db : Store) :
  let data := orElse (db !! sid) emptySession in
  let ps := orElse (players data) [] in
  exists doc next,
    Indexed.addPlayerToSession now sid p db !! sid = Some doc
    /\ ((Forall (fun q => id q <> id p) ps /\ next = ps ++ [p])
        \/ (exists l1 q l2,
              ps = l1 ++ q :: l2 /\ id q = id p
              /\ Forall (fun q' => id q' <> id p) l1
              /\ next = l1 ++ {| id := id q; name := name p |} :: l2))
    /\ players doc = Some (normPlayers (normalizePlayers next (orElse (activePlayerIndex data) 0)))
    /\ activePlayerIndex doc
       = Some (activeIndex (normalizePlayers next (orElse (activePlayerIndex data) 0)))
    /\ storyWords doc = storyWords data
    /\ playerIdsInSync doc
    /\ (Forall wellFormed ps -> keepPlayer p = true ->
          (Forall (fun q => id q <> id p) ps ->
             players doc = Some (ps ++ [trimName p]))
          /\ (forall l1 q l2,
                ps = l1 ++ q :: l2 -> id q = id p ->
                Forall (fun q' => id q' <> id p) l1 ->
                players doc = Some (l1 ++ trimName p :: l2))).
Proof.
  intros data ps.
  unfold Indexed.addPlayerToSession. rewrite lookup_setDocMerge. fold data.
  unfold Indexed.addPlayerPayload. fold ps.
  exists (spread (orElse (db !! sid) noFields)
            (spread data
               {| players := Some (normPlayers (normalizePlayers (upsertPlayer ps p)
                                                  (orElse (activePlayerIndex data) 0)));
                  storyWords := None;
                  activePlayerIndex := Some (activeIndex (normalizePlayers (upsertPlayer ps p)
                                                  (orElse (activePlayerIndex data) 0)));
                  playerIds := Some (Indexed.mergePlayerIds
                                       (normPlayers (normalizePlayers (upsertPlayer ps p)
                                                  (orElse (activePlayerIndex data) 0))));
                  updatedAt := Some now |})),
         (upsertPlayer ps p).
  split; [done|]. split; [apply upsertPlayer_cases|].
  split; [done|]. split; [done|]. split; [|split].
  - simpl. subst data. by destruct (db !! sid) as [d|]; simpl; [destruct (storyWords d)|].
  - apply mergePlayerIds_inSync, cleanPlayers_wellFormed.
  - intros Hwf Hp. simpl. split.
    + intros Hfresh. rewrite (upsertPlayer_fresh ps p Hfresh). f_equal.
      rewrite <- (app_nil_r (ps ++ [trimName p])), <- app_assoc. simpl.
      rewrite <- (cleanPlayers_middle ps p []); [done| |done].
      by rewrite app_nil_r.
    + intros l1 q l2 Hps Hq Hall. rewrite Hps in *.
      rewrite (upsertPlayer_existing l1 q l2 p Hq Hall). f_equal.
      assert (trimName {| id := id q; name := name p |} = trimName p) as <-.
      { unfold trimName; simpl. by rewrite Hq. }
      apply cleanPlayers_middle.
      * apply Forall_app in Hwf as [H1 H2]. apply Forall_cons in H2 as [_ H2].
        by apply Forall_app.
      * unfold keepPlayer in *; simpl. by rewrite Hq.
Qed.

(** ** Resetting the story *)

(** C5: reset-story empties [storyWords], sets the index to 0, writes
    [playerIds] as derived from an empty player list, and does not
    write [players]: the stored list is what it was, and every other
    document is untouched. *)
Theorem resetSessionStory_frame (now : Timestamp) (sid : jsstring) (db : Store) :
  exists doc,
    Indexed.resetSessionStory now sid db !! sid = Some doc
    /\ storyWords doc = Some []
    /\ activePlayerIndex doc = Some 0
    /\ playerIds doc = Some (Indexed.mergePlayerIds [])
    /\ playerIds doc = Some []
    /\ players doc = players (orElse (db !! sid) noFields)
    /\ updatedAt doc = Some now
    /\ forall sid', sid <> sid' ->
         Indexed.resetSessionStory now sid db !! sid' = db !! sid'.
Proof.
  unfold Indexed.resetSessionStory. rewrite lookup_setDocMerge.
  eexists. split; [reflexivity|]. simpl.
  repeat split; try reflexivity.
  intros sid' Hne. by apply lookup_setDocMerge_ne.
Qed.

(** The scenario of the specification: two players and five words
    before, no word, index 0 and the same two players after. *)
Example resetSessionStory_scenario :
  Indexed.resetSessionStory 6%nat (js "shared-story") {[ js "shared-story" := playedSession ]}
    !! js "shared-story"
  = Some {| players := Some [amyTrimmed; bob]; storyWords := Some [];
            activePlayerIndex := Some 0; playerIds := Some [];
            updatedAt := Some 6%nat |}.
Proof.
  unfold Indexed.resetSessionStory. rewrite lookup_setDocMerge.
  by rewrite lookup_singleton_eq.
Qed.

(** C4, where the code departs from the invariant: the document that
    ensure-exists, add-player (twice) and reset-story leave behind
    still has both players, and an empty [playerIds]. *)
Theorem resetSessionStory_desyncs_playerIds :
  let sid := js "shared-story" in
  let db1 := Indexed.ensureSessionExists 1%nat sid None ∅ in
  let db2 := Indexed.addPlayerToSession 2%nat sid amy db1 in
  let db3 := Indexed.addPlayerToSession 3%nat sid bob db2 in
  let db4 := Indexed.resetSessionStory 4%nat sid db3 in
  (exists doc, db3 !! sid = Some doc /\ playerIdsInSync doc)
  /\ exists doc,
       db4 !! sid = Some doc
       /\ players doc = Some [amyTrimmed; bob]
       /\ playerIds doc = Some []
       /\ ~ playerIdsInSync doc.
Proof.
  intros sid db1 db2 db3 db4.
  assert (db3 !! sid = Some {| players := Some [amyTrimmed; bob]; storyWords := Some [];
                               activePlayerIndex := Some 0;
                               playerIds := Some [js "u1"; js "u2"];
                               updatedAt := Some 3%nat |}) as Hdb3.
  { subst db3 db2 db1. unfold Indexed.addPlayerToSession.
    rewrite !lookup_setDocMerge. unfold Indexed.ensureSessionExists, setDoc.
    rewrite lookup_empty, lookup_insert_eq. reflexivity. }
  split.
  - eexists. split; [exact Hdb3|].
    apply (mergePlayerIds_inSync [amyTrimmed; bob]).
    repeat constructor; discriminate.
  - subst db4. unfold Indexed.resetSessionStory.
    rewrite lookup_setDocMerge, Hdb3.
    eexists. split; [reflexivity|].
    simpl. split; [reflexivity|]. split; [reflexivity|].
    intros (ids & Hids & _ & Hin). simpl in Hids, Hin. injection Hids as <-.
    apply (Hin (js "u1")). exists amyTrimmed. split; [by left|reflexivity].
Qed.

(** The other writes do keep the index in sync. *)
Lemma addPlayerToSession_inSync (now : Timestamp) (sid : jsstring) (p : Player) (db : Store) :
  exists doc, Indexed.addPlayerToSession now sid p db !! sid = Some doc /\ playerIdsInSync doc.
Proof.
  unfold Indexed.addPlayerToSession. rewrite lookup_setDocMerge.
  eexists. split; [reflexivity|].
  apply mergePlayerIds_inSync, cleanPlayers_wellFormed.
Qed.

Lemma addWordToSession_inSync (now : Timestamp) (sid word : jsstring) (db : Store) :
  exists doc, Indexed.addWordToSession now sid word db !! sid = Some doc /\ playerIdsInSync doc.
Proof.
  unfold Indexed.addWordToSession. rewrite lookup_setDocMerge.
  eexists. split; [reflexivity|].
  apply mergePlayerIds_inSync, cleanPlayers_wellFormed.
Qed.

Lemma ensureSessionExists_inSync (now : Timestamp) (sid : jsstring)
    (seed : option StorySessionDoc) (db : Store) :
  db !! sid = None ->
  Forall (fun q => id q <> []) (orElse (players (orElse seed noFields)) []) ->
  exists doc, Indexed.ensureSessionExists now sid seed db !! sid = Some doc /\ playerIdsInSync doc.
Proof.
  intros Hnone Hids. unfold Indexed.ensureSessionExists, setDoc.
  rewrite Hnone, lookup_insert_eq. eexists. split; [reflexivity|].
  eexists. simpl. split; [reflexivity|]. split; [apply arrayFromSet_NoDup|].
  intros x. rewrite mergePlayerIds_In.
  destruct (players (orElse seed noFields)) as [ps|]; simpl in *.
  - split; [tauto|]. intros (q & Hq & <-). split; [|eauto].
    rewrite Forall_forall in Hids. apply Hids. by apply list_elem_of_In.
  - split; [tauto|]. by intros (q & [] & _).
Qed.

(** ** Stored players *)

(** C6, as stated, fails for ensure-exists: a seed is stored as given,
    so a seed player with an empty id and a blank name is in the
    document that ensure-exists writes. *)
Lemma ensureSessionExists_stores_seed_verbatim :
  let seed := {| players := Some [blankPlayer]; storyWords := None;
                 activePlayerIndex := None; playerIds := None; updatedAt := None |} in
  let db := Indexed.ensureSessionExists 1%nat (js "s") (Some seed) ∅ in
  storedPlayers db (js "s") = [blankPlayer]
  /\ id blankPlayer = []
  /\ trim (name blankPlayer) = []
  /\ ~ Forall wellFormed (storedPlayers db (js "s")).
Proof.
  intros seed db.
  assert (storedPlayers db (js "s") = [blankPlayer]) as ->.
  { subst db. unfold storedPlayers, Indexed.ensureSessionExists, setDoc.
    by rewrite lookup_empty, lookup_insert_eq. }
  repeat split. intros H. apply Forall_cons in H as [(Hid & _) _].
  apply Hid. reflexivity.
Qed.

(** C6, amended: add-player and add-word store a cleaned list (no
    empty id, no blank name, every name its own trimmed form);
    ensure-exists stores the seed's players as given, the empty list
    when the seed has none, and writes nothing to an existing
    document; reset-story leaves the stored list as it is. *)
Theorem writes_and_stored_players (now : Timestamp) (sid : jsstring) (db : Store) :
  (forall p, Forall wellFormed (storedPlayers (Indexed.addPlayerToSession now sid p db) sid))
  /\ (forall word, Forall wellFormed (storedPlayers (Indexed.addWordToSession now sid word db) sid))
  /\ (forall seed, db !! sid = None ->
        storedPlayers (Indexed.ensureSessionExists now sid seed db) sid
        = orElse (players (orElse seed noFields)) [])
  /\ (forall seed, is_Some (db !! sid) ->
        storedPlayers (Indexed.ensureSessionExists now sid seed db) sid = storedPlayers db sid)
  /\ storedPlayers (Indexed.resetSessionStory now sid db) sid = storedPlayers db sid.
Proof.
  unfold storedPlayers. repeat split.
  - intros p. unfold Indexed.addPlayerToSession. rewrite lookup_setDocMerge. simpl.
    apply cleanPlayers_wellFormed.
  - intros word. unfold Indexed.addWordToSession. rewrite lookup_setDocMerge. simpl.
    apply cleanPlayers_wellFormed.
  - intros seed Hnone. unfold Indexed.ensureSessionExists, setDoc.
    rewrite Hnone, lookup_insert_eq. simpl.
    by destruct (players (orElse seed noFields)).
  - intros seed [d Hd]. unfold Indexed.ensureSessionExists. rewrite Hd. simpl. by rewrite Hd.
  - unfold Indexed.resetSessionStory. by rewrite lookup_setDocMerge.
Qed.

Lemma writes_and_stored_players_witness :
  storedPlayers (Indexed.ensureSessionExists 1%nat (js "s") (Some emptySession) ∅) (js "s") = [].
Proof.
  apply (writes_and_stored_players 1%nat (js "s") ∅). apply lookup_empty.
Defined.

(** ** Creating a session *)

(** C7: ensure-exists leaves the store as it is when the document
    exists, whatever the seed; otherwise it creates the document from
    the seed laid over the empty session, with [playerIds] derived from
    the seed's players and the time stamp. *)
Theorem ensureSessionExists_create_if_absent
    (now : Timestamp) (sid : jsstring) (seed : option StorySessionDoc) (db : Store) :
  let s := orElse seed noFields in
  (is_Some (db !! sid) -> Indexed.ensureSessionExists now sid seed db = db)
  /\ (db !! sid = None ->
        Indexed.ensureSessionExists now sid seed db
        = <[sid := {| players := Some (orElse (players s) []);
                      storyWords := Some (orElse (storyWords s) []);
                      activePlayerIndex := Some (orElse (activePlayerIndex s) 0);
                      playerIds := Some (Indexed.mergePlayerIds (orElse (players s) []));
                      updatedAt := Some now |}]> db).
Proof.
  intros s. unfold Indexed.ensureSessionExists, setDoc. split.
  - intros [d ->]. done.
  - intros ->. fold s. f_equal. unfold spread; simpl.
    by destruct (players s), (storyWords s), (activePlayerIndex s).
Qed.

Lemma ensureSessionExists_create_if_absent_witness :
  Indexed.ensureSessionExists 9%nat (js "s") None {[ js "s" := playedSession ]}
  = {[ js "s" := playedSession ]}
  /\ Indexed.ensureSessionExists 9%nat (js "s") None ∅ !! js "s"
     = Some {| players := Some []; storyWords := Some []; activePlayerIndex := Some 0;
               playerIds := Some []; updatedAt := Some 9%nat |}.
Proof.
  split.
  - apply (ensureSessionExists_create_if_absent 9%nat (js "s") None).
    rewrite lookup_singleton_eq. by eexists.
  - rewrite (proj2 (ensureSessionExists_create_if_absent 9%nat (js "s") None ∅) (lookup_empty _)).
    by rewrite lookup_insert_eq.
Defined.

(** ** Listing the sessions of a user *)

Section Listing.

Lemma hasPlayer_true userId s :
  Indexed.hasPlayer userId s = true
  <-> exists q, In q (Indexed.sessionPlayers s) /\ id q = userId.
Proof.
  unfold Indexed.hasPlayer. rewrite existsb_exists.
  split; intros (q & Hq & E); exists q; split; try done.
  - by apply bool_decide_eq_true in E.
  - by apply bool_decide_eq_true.
Qed.

Lemma getDocs_In (db : Store) sid data :
  In (sid, data) (Indexed.getDocs db) <-> db !! sid = Some data.
Proof.
  unfold Indexed.getDocs. rewrite <- list_elem_of_In. apply elem_of_map_to_list.
Qed.

End Listing.

(** C8: when the indexed query on [playerIds] finds no session,
    list-for-user returns the full scan: the summaries of exactly the
    documents whose normalized player list has a player with the
    user's id.  A document without [playerIds] whose normalized players
    include the user is therefore returned. *)
Theorem getSessionsForUser_falls_back_to_scan (userId : jsstring) (db : Store)
    (Hmiss : Indexed.queryPlayerIds userId db = []) :
  Indexed.getSessionsForUser userId db
  = List.filter (Indexed.hasPlayer userId) (List.map Indexed.formatSessionDoc (Indexed.getDocs db))
  /\ (forall s,
        In s (Indexed.getSessionsForUser userId db)
        <-> exists sid data,
              db !! sid = Some data
              /\ s = Indexed.formatSessionDoc (sid, data)
              /\ exists q,
                   In q (normPlayers (normalizePlayers (orElse (players data) [])
                                        (orElse (activePlayerIndex data) 0)))
                   /\ id q = userId)
  /\ (forall sid data,
        db !! sid = Some data ->
        playerIds data = None ->
        (exists q, In q (cleanPlayers (orElse (players data) [])) /\ id q = userId) ->
        In (Indexed.formatSessionDoc (sid, data)) (Indexed.getSessionsForUser userId db)).
Proof.
  assert (Indexed.getSessionsForUser userId db
          = List.filter (Indexed.hasPlayer userId)
              (List.map Indexed.formatSessionDoc (Indexed.getDocs db))) as Hscan.
  { unfold Indexed.getSessionsForUser. by rewrite Hmiss. }
  assert (forall s,
            In s (Indexed.getSessionsForUser userId db)
            <-> exists sid data,
                  db !! sid = Some data
                  /\ s = Indexed.formatSessionDoc (sid, data)
                  /\ exists q,
                       In q (normPlayers (normalizePlayers (orElse (players data) [])
                                            (orElse (activePlayerIndex data) 0)))
                       /\ id q = userId) as Hiff.
  { intros s. rewrite Hscan, List.filter_In, List.in_map_iff, hasPlayer_true. split.
    - intros [([sid data] & <- & Hin) Hq]. apply getDocs_In in Hin. by exists sid, data.
    - intros (sid & data & Hdb & -> & Hq). split; [|done].
      exists (sid, data). split; [done|]. by apply getDocs_In. }
  split; [exact Hscan|]. split; [exact Hiff|].
  intros sid data Hdb _ Hq. apply Hiff. by exists sid, data.
Qed.

Lemma getSessionsForUser_falls_back_to_scan_witness :
  Indexed.queryPlayerIds (js "u9") {[ js "old" := legacySession ]} = []
  /\ Indexed.getSessionsForUser (js "u9") {[ js "old" := legacySession ]}
     = [Indexed.formatSessionDoc (js "old", legacySession)].
Proof.
  assert (Indexed.queryPlayerIds (js "u9") {[ js "old" := legacySession ]} = []) as Hmiss.
  { unfold Indexed.queryPlayerIds, Indexed.getDocs. by rewrite map_to_list_singleton. }
  split; [exact Hmiss|].
  rewrite (proj1 (getSessionsForUser_falls_back_to_scan (js "u9") _ Hmiss)).
  unfold Indexed.getDocs. by rewrite map_to_list_singleton.
Defined.

(** ** The two revisions *)

(** C10: on every prior document and every input, the objects that the
    two revisions hand to the transaction agree on [players],
    [storyWords] and [activePlayerIndex] (and on the time stamp), and so
    do the documents they leave in the store; only [playerIds] differs:
    the older revision leaves it as it was, the newer one recomputes it
    from the players it writes. *)
Theorem revisions_agree_except_playerIds
    (now : Timestamp) (sid : jsstring) (db : Store) (data : StorySessionDoc) :
  (forall p,
     let a := Legacy.addPlayerPayload now data p in
     let b := Indexed.addPlayerPayload now data p in
     players a = players b /\ storyWords a = storyWords b
     /\ activePlayerIndex a = activePlayerIndex b /\ updatedAt a = updatedAt b
     /\ playerIds a = playerIds data
     /\ playerIds b = Some (Indexed.mergePlayerIds (orElse (players b) [])))
  /\ (forall word,
        let a := Legacy.addWordPayload now data word in
        let b := Indexed.addWordPayload now data word in
        players a = players b /\ storyWords a = storyWords b
        /\ activePlayerIndex a = activePlayerIndex b /\ updatedAt a = updatedAt b
        /\ playerIds a = playerIds data
        /\ playerIds b = Some (Indexed.mergePlayerIds (orElse (players b) [])))
  /\ (forall p,
        exists a b,
          Legacy.addPlayerToSession now sid p db !! sid = Some a
          /\ Indexed.addPlayerToSession now sid p db !! sid = Some b
          /\ players a = players b /\ storyWords a = storyWords b
          /\ activePlayerIndex a = activePlayerIndex b)
  /\ (forall word,
        exists a b,
          Legacy.addWordToSession now sid word db !! sid = Some a
          /\ Indexed.addWordToSession now sid word db !! sid = Some b
          /\ players a = players b /\ storyWords a = storyWords b
          /\ activePlayerIndex a = activePlayerIndex b)
  /\ (forall sid' p word,
        sid <> sid' ->
        Legacy.addPlayerToSession now sid p db !! sid'
        = Indexed.addPlayerToSession now sid p db !! sid'
        /\ Legacy.addWordToSession now sid word db !! sid'
           = Indexed.addWordToSession now sid word db !! sid').
Proof.
  split; [|split; [|split; [|split]]].
  - intros p. simpl. by repeat split.
  - intros word. simpl. by repeat split.
  - intros p. unfold Legacy.addPlayerToSession, Indexed.addPlayerToSession.
    rewrite !lookup_setDocMerge. eexists _, _.
    split; [reflexivity|]. split; [reflexivity|]. by repeat split.
  - intros word. unfold Legacy.addWordToSession, Indexed.addWordToSession.
    rewrite !lookup_setDocMerge. eexists _, _.
    split; [reflexivity|]. split; [reflexivity|]. by repeat split.
  - intros sid' p word Hne.
    unfold Legacy.addPlayerToSession, Indexed.addPlayerToSession,
      Legacy.addWordToSession, Indexed.addWordToSession.
    by rewrite !lookup_setDocMerge_ne.
Qed.

(** ** Scenarios of the specification *)

Section Scenarios.

(** An empty session and a player named " Amy ". *)
Example addPlayer_scenario :
  Indexed.addPlayerToSession 2%nat sharedStory amy
    (Indexed.ensureSessionExists 1%nat sharedStory None ∅) !! sharedStory
  = Some {| players := Some [amyTrimmed]; storyWords := Some [];
            activePlayerIndex := Some 0; playerIds := Some [js "u1"];
            updatedAt := Some 2%nat |}.
Proof.
  unfold Indexed.addPlayerToSession, Indexed.ensureSessionExists, setDoc.
  rewrite lookup_setDocMerge, lookup_empty, lookup_insert_eq. reflexivity.
Qed.

(** Re-adding an id renames the player where it stands. *)
Example addPlayer_rename_scenario :
  Indexed.addPlayerToSession 2%nat sharedStory {| id := js "u1"; name := js "Amelia " |}
    {[ sharedStory := twoPlayers ]} !! sharedStory
  = Some {| players := Some [{| id := js "u1"; name := js "Amelia" |}; bob];
            storyWords := Some []; activePlayerIndex := Some 0;
            playerIds := Some [js "u1"; js "u2"]; updatedAt := Some 2%nat |}.
Proof.
  unfold Indexed.addPlayerToSession.
  rewrite lookup_setDocMerge, lookup_singleton_eq. reflexivity.
Qed.

(** Two players, "cat" and then "dog": the turn goes to the second
    player and back to the first. *)
Example addWord_scenario :
  let db1 :=
    Indexed.addWordToSession 2%nat sharedStory (js "cat") {[ sharedStory := twoPlayers ]} in
  let db2 := Indexed.addWordToSession 3%nat sharedStory (js " dog") db1 in
  (storyWords <$> db1 !! sharedStory) = Some (Some [js "cat"])
  /\ (activePlayerIndex <$> db1 !! sharedStory) = Some (Some 1)
  /\ (storyWords <$> db2 !! sharedStory) = Some (Some [js "cat"; js "dog"])
  /\ (activePlayerIndex <$> db2 !! sharedStory) = Some (Some 0).
Proof.
  intros db1 db2.
  assert (db1 !! sharedStory
          = Some {| players := Some [amyTrimmed; bob]; storyWords := Some [js "cat"];
                    activePlayerIndex := Some 1; playerIds := Some [js "u1"; js "u2"];
                    updatedAt := Some 2%nat |}) as H1.
  { subst db1. unfold Indexed.addWordToSession.
    rewrite lookup_setDocMerge, lookup_singleton_eq. reflexivity. }
  assert (db2 !! sharedStory
          = Some {| players := Some [amyTrimmed; bob]; storyWords := Some [js "cat"; js "dog"];
                    activePlayerIndex := Some 0; playerIds := Some [js "u1"; js "u2"];
                    updatedAt := Some 3%nat |}) as H2.
  { subst db2. unfold Indexed.addWordToSession.
    rewrite lookup_setDocMerge, H1. reflexivity. }
  rewrite H1, H2. by repeat split.
Qed.

(** A stored index below -1 stays negative through add-word: the
    remainder takes the sign of the dividend. *)
Example addWord_negative_index :
  activePlayerIndex
    (Indexed.addWordPayload 2%nat
       {| players := Some [amyTrimmed; bob]; storyWords := Some [];
          activePlayerIndex := Some (-2); playerIds := None; updatedAt := None |}
       (js "cat"))
  = Some (-1).
Proof. reflexivity. Qed.

(** One find on a stored index of -1. *)
Example findSession_negative_index :
  Indexed.sessionActivePlayerIndex
    <$> Indexed.findSession sharedStory
          {[ sharedStory := {| players := Some [amy]; storyWords := None;
                       activePlayerIndex := Some (-1); playerIds := None;
                       updatedAt := None |} ]}
  = Some (-1).
Proof. unfold Indexed.findSession. by rewrite lookup_singleton_eq. Qed.

End Scenarios.

(** * Further properties of the session module *)

(** ** Shared facts *)

Section ListFacts.

Context {A : Type}.

Lemma filter_sublist (f : A -> bool) (l : list A) : List.filter f l `sublist_of` l.
Proof.
  induction l as [|x r IH]; simpl; [constructor|].
  destruct (f x); by constructor.
Qed.

Lemma NoDup_map_filter {B} (g : A -> B) (f : A -> bool) (l : list A) :
  List.NoDup (List.map g l) -> List.NoDup (List.map g (List.filter f l)).
Proof.
  induction l as [|x r IH]; simpl; [done|].
  intros H. apply List.NoDup_cons_iff in H as [Hx Hr].
  destruct (f x); simpl; [|by apply IH].
  apply List.NoDup_cons; [|by apply IH].
  intros Hin. apply Hx. apply List.in_map_iff in Hin as (y & <- & Hy).
  apply List.filter_In in Hy as [Hy _]. by apply List.in_map.
Qed.

End ListFacts.

Section CleaningIds.

Lemma cleanPlayers_ids ps :
  List.map id (cleanPlayers ps) = List.map id (List.filter keepPlayer ps).
Proof. unfold cleanPlayers. rewrite List.map_map. done. Qed.

Lemma cleanPlayers_In ps q :
  In q (cleanPlayers ps) <-> exists p, In p ps /\ keepPlayer p = true /\ q = trimName p.
Proof.
  unfold cleanPlayers. rewrite List.in_map_iff. split.
  - intros (p & <- & Hp). apply List.filter_In in Hp as [Hp Hk]. by exists p.
  - intros (p & Hp & Hk & ->). exists p. split; [done|]. by apply List.filter_In.
Qed.

Lemma cleanPlayers_keep l1 p l2 :
  keepPlayer p = true ->
  cleanPlayers (l1 ++ p :: l2) = cleanPlayers l1 ++ trimName p :: cleanPlayers l2.
Proof.
  intros Hp. change (p :: l2) with ([p] ++ l2). rewrite !cleanPlayers_app.
  unfold cleanPlayers at 2; simpl. by rewrite Hp.
Qed.

Lemma cleanPlayers_drop l1 p l2 :
  keepPlayer p = false -> cleanPlayers (l1 ++ p :: l2) = cleanPlayers (l1 ++ l2).
Proof.
  intros Hp. change (p :: l2) with ([p] ++ l2). rewrite !cleanPlayers_app.
  unfold cleanPlayers at 2; simpl. by rewrite Hp.
Qed.

Lemma cleanPlayers_other_ids x l :
  Forall (fun q => id q <> x) l -> Forall (fun q => id q <> x) (cleanPlayers l).
Proof.
  intros H. apply Forall_forall. intros q Hq.
  apply list_elem_of_In, cleanPlayers_In in Hq as (p & Hp & _ & ->).
  rewrite Forall_forall in H. apply (H p). by apply list_elem_of_In.
Qed.

Lemma cleanPlayers_length ps : (length (cleanPlayers ps) <= length ps)%nat.
Proof.
  unfold cleanPlayers. rewrite length_map. apply List.filter_length_le.
Qed.

End CleaningIds.

(** ** The membership index and normalization *)

Section InsertionOrder.

(** A [Set] keeps insertion order: a value that comes last is appended
    when it is new and changes nothing when it is already there. *)
Lemma arrayFromSet_snoc (xs : list jsstring) (x : jsstring) :
  (In x (arrayFromSet xs) -> arrayFromSet (xs ++ [x]) = arrayFromSet xs)
  /\ (~ In x (arrayFromSet xs) -> arrayFromSet (xs ++ [x]) = arrayFromSet xs ++ [x]).
Proof.
  induction xs as [|y r [IHin IHout]]; simpl.
  - split; [done|]. done.
  - set (keep := fun z : jsstring => negb (bool_decide (z = y))).
    assert (forall z, keep z = true <-> z <> y) as Hkeep.
    { intros z. unfold keep. by rewrite negb_true_iff, bool_decide_eq_false. }
    destruct (decide (x = y)) as [->|Hne].
    + split; [|intros H; exfalso; apply H; by left]. intros _. f_equal.
      destruct (decide (y ∈ arrayFromSet r)) as [Hin|Hout].
      * apply list_elem_of_In in Hin. by rewrite (IHin Hin).
      * rewrite list_elem_of_In in Hout. rewrite (IHout Hout), List.filter_app. simpl.
        assert (keep y = false) as -> by (unfold keep; by rewrite bool_decide_eq_true_2).
        by rewrite app_nil_r.
    + split.
      * intros [->|Hin]; [done|]. apply List.filter_In in Hin as [Hin _].
        by rewrite (IHin Hin).
      * intros Hout.
        assert (~ In x (arrayFromSet r)) as Hout'.
        { intros Hin. apply Hout. right. apply List.filter_In. split; [done|]. by apply Hkeep. }
        rewrite (IHout Hout'), List.filter_app. simpl.
        by assert (keep x = true) as -> by by apply Hkeep.
Qed.

Lemma mergePlayerIds_snoc (ps : list Player) (p : Player) :
  (id p = [] \/ In (id p) (Indexed.mergePlayerIds ps) ->
     Indexed.mergePlayerIds (ps ++ [p]) = Indexed.mergePlayerIds ps)
  /\ (id p <> [] -> ~ In (id p) (Indexed.mergePlayerIds ps) ->
        Indexed.mergePlayerIds (ps ++ [p]) = Indexed.mergePlayerIds ps ++ [id p]).
Proof.
  unfold Indexed.mergePlayerIds. rewrite List.map_app, List.filter_app. simpl.
  destruct (id p) as [|c r] eqn:E; simpl.
  - rewrite app_nil_r. split; [done|]. by intros H.
  - destruct (arrayFromSet_snoc (List.filter Boolean (List.map id ps)) (c :: r)) as [Hin Hout].
    split.
    + intros [H|H]; [done|]. by apply Hin.
    + intros _ H. by apply Hout.
Qed.

End InsertionOrder.

(** X1: [mergePlayerIds] gives the set of the non-empty ids of the
    players: no id twice, never the empty id, exactly the non-empty ids
    that occur, in the order of their first occurrence.  The order is
    that of insertion: nothing for no player, and a player added at the
    end contributes its id at the end when the id is non-empty and not
    yet there, and nothing otherwise. *)
Theorem mergePlayerIds_is_the_id_set (ps : list Player) :
  List.NoDup (Indexed.mergePlayerIds ps)
  /\ ~ In [] (Indexed.mergePlayerIds ps)
  /\ (forall x, In x (Indexed.mergePlayerIds ps)
                <-> x <> [] /\ exists q, In q ps /\ id q = x)
  /\ Indexed.mergePlayerIds ps `sublist_of` List.map id ps
  /\ Indexed.mergePlayerIds [] = []
  /\ (forall p,
        (id p = [] \/ In (id p) (Indexed.mergePlayerIds ps) ->
           Indexed.mergePlayerIds (ps ++ [p]) = Indexed.mergePlayerIds ps)
        /\ (id p <> [] -> ~ In (id p) (Indexed.mergePlayerIds ps) ->
              Indexed.mergePlayerIds (ps ++ [p]) = Indexed.mergePlayerIds ps ++ [id p])).
Proof.
  split; [apply arrayFromSet_NoDup|]. split.
  - intros H. apply mergePlayerIds_In in H as [H _]. by apply H.
  - split; [apply mergePlayerIds_In|]. split; [|split; [done|apply mergePlayerIds_snoc]].
    unfold Indexed.mergePlayerIds.
    transitivity (List.filter Boolean (List.map id ps)); [|apply filter_sublist].
    generalize (List.filter Boolean (List.map id ps)). intros l.
    induction l as [|x r IH]; simpl; [constructor|].
    constructor. etransitivity; [apply filter_sublist|exact IH].
Qed.

(** The ids [u1, u2, u1] give [u1, u2]: the first occurrence decides. *)
Example mergePlayerIds_first_occurrence :
  Indexed.mergePlayerIds [amyTrimmed; bob; amy] = [js "u1"; js "u2"].
Proof. reflexivity. Qed.

(** X2: normalization only drops and trims.  Every player it returns
    is well formed and is the trimmed form of a stored player that
    passes the filter; the ids come in the stored order; the list is
    never longer than the stored one. *)
Theorem normalizePlayers_drops_and_trims (ps : list Player) (i : Z) :
  let out := normPlayers (normalizePlayers ps i) in
  Forall wellFormed out
  /\ (forall q, In q out <-> exists p, In p ps /\ keepPlayer p = true /\ q = trimName p)
  /\ List.map id out `sublist_of` List.map id ps
  /\ (length out <= length ps)%nat.
Proof.
  simpl. fold (cleanPlayers ps).
  split; [apply cleanPlayers_wellFormed|]. split; [apply cleanPlayers_In|]. split.
  - rewrite cleanPlayers_ids. induction ps as [|p r IH]; simpl; [constructor|].
    destruct (keepPlayer p); by constructor.
  - apply cleanPlayers_length.
Qed.

(** X3: a state that satisfies the invariants is a fixed point of
    normalization. *)
Theorem normalizePlayers_fixes_valid_states (ps : list Player) (i : Z)
    (Hclean : Forall wellFormed ps)
    (Hindex : indexInRange {| normPlayers := ps; activeIndex := i |}) :
  normalizePlayers ps i = {| normPlayers := ps; activeIndex := i |}.
Proof.
  unfold normalizePlayers. rewrite (cleanPlayers_fixed ps Hclean), length_eqb_nil.
  unfold indexInRange in Hindex; simpl in Hindex.
  destruct ps as [|p r]; [by rewrite Hindex|].
  f_equal. apply Z.min_l. lia.
Qed.

Lemma normalizePlayers_fixes_valid_states_witness :
  normalizePlayers [amyTrimmed; bob] 1 = {| normPlayers := [amyTrimmed; bob]; activeIndex := 1 |}.
Proof.
  apply normalizePlayers_fixes_valid_states.
  - repeat constructor; discriminate.
  - unfold indexInRange; simpl. lia.
Defined.

(** X4: the subscription skips the callback exactly when the document
    is absent; otherwise the state it delivers has well-formed players,
    a [playerIds] in sync with them, the stored words (none when the
    field is absent) and an index that is 0 without players and below
    the number of players otherwise, whatever the stored document
    looks like. *)
Theorem subscribeToSession_delivers_normalized (sid : jsstring) (db : Store) :
  (Indexed.subscribeToSession sid db = None <-> db !! sid = None)
  /\ forall data, db !! sid = Some data ->
       exists view ps idx,
         Indexed.subscribeToSession sid db = Some view
         /\ players view = Some ps
         /\ Forall wellFormed ps
         /\ playerIdsInSync view
         /\ storyWords view = Some (orElse (storyWords data) [])
         /\ activePlayerIndex view = Some idx
         /\ (ps = [] -> idx = 0)
         /\ (ps <> [] -> idx < Z.of_nat (length ps))
         /\ (0 <= orElse (activePlayerIndex data) 0 -> 0 <= idx).
Proof.
  unfold Indexed.subscribeToSession. split.
  - by destruct (db !! sid).
  - intros data ->.
    set (n := normalizePlayers (orElse (players data) []) (orElse (activePlayerIndex data) 0)).
    exists {| players := Some (normPlayers n);
              storyWords := Some (orElse (storyWords data) []);
              activePlayerIndex := Some (activeIndex n);
              playerIds := Some (Indexed.mergePlayerIds (normPlayers n));
              updatedAt := None |}, (normPlayers n), (activeIndex n).
    split; [done|]. split; [done|].
    split; [apply cleanPlayers_wellFormed|].
    split; [apply mergePlayerIds_inSync, cleanPlayers_wellFormed|].
    split; [done|]. split; [done|].
    subst n. rewrite normalizePlayers_index, normalizePlayers_players.
    destruct (cleanPlayers (orElse (players data) [])) as [|p r]; simpl length.
    + by repeat split.
    + repeat split; intros; try done; lia.
Qed.

(** ** What the transactions store *)

Section StoredDocuments.

Lemma addPlayerToSession_lookup (now : Timestamp) (sid : jsstring) (p : Player) (db : Store) :
  let next := upsertPlayer (storedPlayers db sid) p in
  Indexed.addPlayerToSession now sid p db !! sid
  = Some {| players := Some (cleanPlayers next);
            storyWords := Some (storedWords db sid);
            activePlayerIndex := Some (activeIndex (normalizePlayers next (storedIndex db sid)));
            playerIds := Some (Indexed.mergePlayerIds (cleanPlayers next));
            updatedAt := Some now |}
  \/ (exists d, db !! sid = Some d /\ storyWords d = None)
     /\ Indexed.addPlayerToSession now sid p db !! sid
        = Some {| players := Some (cleanPlayers next);
                  storyWords := None;
                  activePlayerIndex := Some (activeIndex (normalizePlayers next (storedIndex db sid)));
                  playerIds := Some (Indexed.mergePlayerIds (cleanPlayers next));
                  updatedAt := Some now |}.
Proof.
  intros next. subst next.
  unfold Indexed.addPlayerToSession. rewrite lookup_setDocMerge.
  unfold storedPlayers, storedIndex, storedWords.
  destruct (db !! sid) as [d|] eqn:E; simpl.
  - destruct (storyWords d) as [w|] eqn:W.
    + left. unfold Indexed.addPlayerPayload, spread; simpl. by rewrite W.
    + right. split; [by exists d|].
      unfold Indexed.addPlayerPayload, spread; simpl. by rewrite W.
  - left. reflexivity.
Qed.

Lemma addPlayerToSession_stored (now : Timestamp) (sid : jsstring) (p : Player) (db : Store) :
  let db' := Indexed.addPlayerToSession now sid p db in
  let next := upsertPlayer (storedPlayers db sid) p in
  storedPlayers db' sid = cleanPlayers next
  /\ storedIndex db' sid = activeIndex (normalizePlayers next (storedIndex db sid))
  /\ storedWords db' sid = storedWords db sid
  /\ (playerIds <$> db' !! sid) = Some (Some (Indexed.mergePlayerIds (cleanPlayers next)))
  /\ (updatedAt <$> db' !! sid) = Some (Some now).
Proof.
  intros db' next. subst db'.
  destruct (addPlayerToSession_lookup now sid p db) as [H|[(d & Hd & Hw) H]];
    fold next in H; unfold storedPlayers, storedIndex, storedWords in *; rewrite H; simpl.
  - done.
  - rewrite Hd; simpl. by rewrite Hw.
Qed.

Lemma addWordToSession_stored (now : Timestamp) (sid word : jsstring) (db : Store) :
  let db' := Indexed.addWordToSession now sid word db in
  let n := normalizePlayers (storedPlayers db sid) (storedIndex db sid) in
  storedPlayers db' sid = normPlayers n
  /\ storedIndex db' sid
     = (if negb (Nat.eqb (length (normPlayers n)) 0)
        then jsRem (activeIndex n + 1) (Z.of_nat (length (normPlayers n)))
        else 0)
  /\ storedWords db' sid = storedWords db sid ++ [trim word]
  /\ (playerIds <$> db' !! sid) = Some (Some (Indexed.mergePlayerIds (normPlayers n)))
  /\ (updatedAt <$> db' !! sid) = Some (Some now).
Proof.
  intros db' n. subst db' n.
  unfold Indexed.addWordToSession, storedPlayers, storedIndex, storedWords.
  rewrite lookup_setDocMerge.
  by destruct (db !! sid) as [d|]; simpl;
    [destruct (players d), (activePlayerIndex d), (storyWords d)|].
Qed.

Lemma upsertPlayer_In ps p : In p (upsertPlayer ps p).
Proof.
  destruct (upsertPlayer_cases ps p) as [[_ ->]|(l1 & q & l2 & _ & Hq & _ & ->)].
  - apply in_or_app. right. by left.
  - apply in_or_app. right. left. destruct p; simpl in *. by rewrite Hq.
Qed.

(** Re-adding a player that passes the filter gives the same cleaned
    list. *)
Lemma upsertPlayer_clean_twice ps p :
  keepPlayer p = true ->
  cleanPlayers (upsertPlayer (cleanPlayers (upsertPlayer ps p)) p)
  = cleanPlayers (upsertPlayer ps p).
Proof.
  intros Hp.
  assert (forall l1 l2, Forall (fun q => id q <> id p) l1 ->
            cleanPlayers (upsertPlayer (cleanPlayers l1 ++ trimName p :: cleanPlayers l2) p)
            = cleanPlayers l1 ++ trimName p :: cleanPlayers l2) as Hstep.
  { intros l1 l2 Hall.
    rewrite (upsertPlayer_existing (cleanPlayers l1) (trimName p) (cleanPlayers l2) p);
      [|done|by apply cleanPlayers_other_ids].
    simpl. replace {| id := id p; name := name p |} with p by by destruct p.
    by rewrite cleanPlayers_keep, !cleanPlayers_idem. }
  destruct (upsertPlayer_cases ps p) as [[Hall ->]|(l1 & q & l2 & -> & Hq & Hall & ->)].
  - rewrite (cleanPlayers_keep ps p [] Hp). by apply (Hstep ps []).
  - replace {| id := id q; name := name p |} with p by (destruct p; simpl in *; by rewrite Hq).
    rewrite (cleanPlayers_keep l1 p l2 Hp). by apply Hstep.
Qed.

End StoredDocuments.

Section Finding.

Lemma stored_of_lookup (sid : jsstring) (db : Store) (data : StorySessionDoc) :
  db !! sid = Some data ->
  orElse (players data) [] = storedPlayers db sid
  /\ orElse (activePlayerIndex data) 0 = storedIndex db sid
  /\ orElse (storyWords data) [] = storedWords db sid.
Proof. intros H. unfold storedPlayers, storedIndex, storedWords. by rewrite H. Qed.

Lemma findSession_stored (sid : jsstring) (db : Store) (data : StorySessionDoc) :
  db !! sid = Some data ->
  Indexed.findSession sid db
  = Some {| Indexed.sessionId := sid;
            Indexed.sessionPlayers := cleanPlayers (storedPlayers db sid);
            Indexed.sessionStoryWords := storedWords db sid;
            Indexed.sessionActivePlayerIndex :=
              activeIndex (normalizePlayers (storedPlayers db sid) (storedIndex db sid));
            Indexed.sessionUpdatedAt := updatedAt data |}.
Proof.
  intros H. destruct (stored_of_lookup sid db data H) as (Hp & Hi & Hw).
  unfold Indexed.findSession, Indexed.formatSessionDoc. rewrite H. simpl.
  by rewrite Hp, Hi, Hw.
Qed.

End Finding.

(** ** Adding a player, further *)

(** X5: a player that passes the filter is found right after it was
    added: find returns the session under the same id, with the
    trimmed player among its players, the words untouched and the time
    stamp of the write. *)
Theorem findSession_after_addPlayer
    (now : Timestamp) (sid : jsstring) (p : Player) (db : Store)
    (Hp : keepPlayer p = true) :
  exists s,
    Indexed.findSession sid (Indexed.addPlayerToSession now sid p db) = Some s
    /\ Indexed.sessionId s = sid
    /\ In (trimName p) (Indexed.sessionPlayers s)
    /\ Indexed.sessionPlayers s = cleanPlayers (upsertPlayer (storedPlayers db sid) p)
    /\ Indexed.sessionStoryWords s = storedWords db sid
    /\ Indexed.sessionUpdatedAt s = Some now.
Proof.
  destruct (addPlayerToSession_stored now sid p db) as (Hps & _ & Hws & _ & Hup).
  destruct (Indexed.addPlayerToSession now sid p db !! sid) as [data|] eqn:E; [|done].
  rewrite (findSession_stored sid _ data E). eexists. split; [reflexivity|]. simpl.
  rewrite Hps, Hws, cleanPlayers_idem.
  split; [done|]. split.
  - apply cleanPlayers_In. exists p. split; [apply upsertPlayer_In|done].
  - split; [done|]. split; [done|]. simpl in Hup. congruence.
Qed.

Lemma findSession_after_addPlayer_witness :
  exists s,
    Indexed.findSession sharedStory (Indexed.addPlayerToSession 2%nat sharedStory amy ∅) = Some s
    /\ In amyTrimmed (Indexed.sessionPlayers s).
Proof.
  destruct (findSession_after_addPlayer 2%nat sharedStory amy ∅ eq_refl)
    as (s & Hs & _ & Hin & _).
  exists s. split; [exact Hs|exact Hin].
Defined.

(** X6: adding the same player again changes nothing but the time
    stamp, when the player passes the filter: players, index, words and
    [playerIds] are those of the first call, and so is every other
    session. *)
Theorem addPlayer_twice_is_once
    (now1 now2 : Timestamp) (sid : jsstring) (p : Player) (db : Store)
    (Hp : keepPlayer p = true) :
  let db1 := Indexed.addPlayerToSession now1 sid p db in
  let db2 := Indexed.addPlayerToSession now2 sid p db1 in
  storedPlayers db2 sid = storedPlayers db1 sid
  /\ storedIndex db2 sid = storedIndex db1 sid
  /\ storedWords db2 sid = storedWords db1 sid
  /\ (playerIds <$> db2 !! sid) = (playerIds <$> db1 !! sid)
  /\ forall sid', sid <> sid' -> db2 !! sid' = db1 !! sid'.
Proof.
  intros db1 db2.
  destruct (addPlayerToSession_stored now1 sid p db) as (Hps1 & Hi1 & _ & Hids1 & _).
  destruct (addPlayerToSession_stored now2 sid p db1) as (Hps2 & Hi2 & Hws2 & Hids2 & _).
  fold db1 in Hps1, Hi1, Hids1. fold db2 in Hps2, Hi2, Hws2, Hids2.
  assert (storedPlayers db2 sid = storedPlayers db1 sid) as Hsame.
  { rewrite Hps2, Hps1. by apply upsertPlayer_clean_twice. }
  split; [exact Hsame|]. split.
  - rewrite Hi2, normalizePlayers_index, <- Hps2, Hsame.
    rewrite normalizePlayers_index, <- Hps1 in Hi1.
    destruct (storedPlayers db1 sid) as [|q r]; [done|].
    rewrite Hi1. apply Z.min_l, Z.le_min_r.
  - split; [exact Hws2|]. split.
    + rewrite Hids2, Hids1, <- Hps2, <- Hps1. by rewrite Hsame.
    + intros sid' Hne. subst db2. unfold Indexed.addPlayerToSession at 1.
      by apply lookup_setDocMerge_ne.
Qed.

Lemma addPlayer_twice_is_once_witness :
  storedPlayers
    (Indexed.addPlayerToSession 3%nat sharedStory amy
       (Indexed.addPlayerToSession 2%nat sharedStory amy ∅)) sharedStory
  = storedPlayers (Indexed.addPlayerToSession 2%nat sharedStory amy ∅) sharedStory.
Proof.
  apply (addPlayer_twice_is_once 2%nat 3%nat sharedStory amy ∅). reflexivity.
Defined.

(** X7: a player with an empty id or a blank name is never stored.
    With a new id the stored list is only cleaned; with the id of a
    stored player, the first holder of that id is removed. *)
Theorem addPlayer_rejected_player
    (now : Timestamp) (sid : jsstring) (p : Player) (db : Store)
    (Hp : keepPlayer p = false) :
  let ps := storedPlayers db sid in
  let ps' := storedPlayers (Indexed.addPlayerToSession now sid p db) sid in
  ~ In p ps'
  /\ (Forall (fun q => id q <> id p) ps -> ps' = cleanPlayers ps)
  /\ (forall l1 q l2,
        ps = l1 ++ q :: l2 -> id q = id p -> Forall (fun q' => id q' <> id p) l1 ->
        ps' = cleanPlayers (l1 ++ l2)).
Proof.
  intros ps ps'.
  destruct (addPlayerToSession_stored now sid p db) as (Hps & _).
  fold ps in Hps. fold ps' in Hps. rewrite Hps. split; [|split].
  - intros Hin.
    pose proof (cleanPlayers_wellFormed (upsertPlayer ps p)) as Hwf.
    rewrite Forall_forall in Hwf. specialize (Hwf p (proj2 (list_elem_of_In _ _) Hin)).
    destruct Hwf as (Hid & Hname & Heq).
    assert (keepPlayer p = true) by (apply keepPlayer_true; by split).
    congruence.
  - intros Hfresh. rewrite (upsertPlayer_fresh ps p Hfresh).
    rewrite (cleanPlayers_drop ps p [] Hp). by rewrite app_nil_r.
  - intros l1 q l2 Hsplit Hq Hall. rewrite Hsplit.
    rewrite (upsertPlayer_existing l1 q l2 p Hq Hall).
    apply cleanPlayers_drop. unfold keepPlayer in *; simpl. by rewrite Hq.
Qed.

Lemma addPlayer_rejected_player_witness :
  storedPlayers
    (Indexed.addPlayerToSession 2%nat sharedStory {| id := js "u1"; name := js "  " |}
       {[ sharedStory := twoPlayers ]}) sharedStory
  = cleanPlayers ([] ++ [bob]).
Proof.
  refine (proj2 (proj2 (addPlayer_rejected_player 2%nat sharedStory
                          {| id := js "u1"; name := js "  " |}
                          {[ sharedStory := twoPlayers ]} eq_refl))
            [] amyTrimmed [bob] _ eq_refl _).
  - unfold storedPlayers. by rewrite lookup_singleton_eq.
  - constructor.
Defined.

(** X8: add-player keeps the ids distinct: when no two stored players
    share an id, no two players of the written list do. *)
Theorem addPlayer_keeps_ids_distinct
    (now : Timestamp) (sid : jsstring) (p : Player) (db : Store)
    (Hdistinct : List.NoDup (List.map id (storedPlayers db sid))) :
  List.NoDup (List.map id (storedPlayers (Indexed.addPlayerToSession now sid p db) sid)).
Proof.
  destruct (addPlayerToSession_stored now sid p db) as (-> & _).
  rewrite cleanPlayers_ids. apply NoDup_map_filter.
  destruct (upsertPlayer_cases (storedPlayers db sid) p)
    as [[Hall ->]|(l1 & q & l2 & Hsplit & Hq & Hall & ->)].
  - rewrite List.map_app. simpl. apply NoDup_ListNoDup, NoDup_app.
    split; [by apply NoDup_ListNoDup|]. split; [|apply NoDup_singleton].
    intros x Hx Hx'. apply list_elem_of_singleton in Hx' as ->.
    apply list_elem_of_In, List.in_map_iff in Hx as (q & Hq & Hin).
    rewrite Forall_forall in Hall. apply (Hall q); [by apply list_elem_of_In|done].
  - rewrite Hsplit in Hdistinct. rewrite List.map_app in *. exact Hdistinct.
Qed.

Lemma addPlayer_keeps_ids_distinct_witness :
  List.NoDup
    (List.map id
       (storedPlayers
          (Indexed.addPlayerToSession 2%nat sharedStory {| id := js "u1"; name := js "Amelia" |}
             {[ sharedStory := twoPlayers ]}) sharedStory))
  /\ List.NoDup
       (List.map id
          (storedPlayers
             (Indexed.addPlayerToSession 2%nat sharedStory {| id := js "u3"; name := js "Cy" |}
                {[ sharedStory := twoPlayers ]}) sharedStory)).
Proof.
  assert (List.NoDup (List.map id (storedPlayers {[ sharedStory := twoPlayers ]} sharedStory)))
    as Hdistinct.
  { unfold storedPlayers. rewrite lookup_singleton_eq. simpl.
    constructor; [|constructor; [|constructor]].
    - intros [H|[]]. discriminate.
    - intros []. }
  split.
  - exact (addPlayer_keeps_ids_distinct 2%nat sharedStory {| id := js "u1"; name := js "Amelia" |}
             {[ sharedStory := twoPlayers ]} Hdistinct).
  - exact (addPlayer_keeps_ids_distinct 2%nat sharedStory {| id := js "u3"; name := js "Cy" |}
             {[ sharedStory := twoPlayers ]} Hdistinct).
Defined.

(** X9: on a session that satisfies the invariants, adding a player
    that passes the filter does not move the turn, and the invariants
    still hold afterwards. *)
Theorem addPlayer_keeps_the_turn
    (now : Timestamp) (sid : jsstring) (p : Player) (db : Store)
    (Hp : keepPlayer p = true)
    (Hclean : Forall wellFormed (storedPlayers db sid))
    (Hindex : indexInRange {| normPlayers := storedPlayers db sid;
                              activeIndex := storedIndex db sid |}) :
  let db' := Indexed.addPlayerToSession now sid p db in
  storedIndex db' sid = storedIndex db sid
  /\ Forall wellFormed (storedPlayers db' sid)
  /\ indexInRange {| normPlayers := storedPlayers db' sid; activeIndex := storedIndex db' sid |}
  /\ (length (storedPlayers db sid) <= length (storedPlayers db' sid))%nat.
Proof.
  intros db'.
  destruct (addPlayerToSession_stored now sid p db) as (Hps & Hi & _).
  fold db' in Hps, Hi.
  set (ps := storedPlayers db sid) in *. set (i := storedIndex db sid) in *.
  assert (length ps <= length (storedPlayers db' sid)
          /\ storedPlayers db' sid <> [])%nat as [Hlen Hne].
  { rewrite Hps.
    destruct (upsertPlayer_cases ps p) as [[Hall ->]|(l1 & q & l2 & Hsplit & Hq & Hall & ->)].
    - rewrite (cleanPlayers_keep ps p [] Hp), (cleanPlayers_fixed ps Hclean).
      rewrite length_app. simpl. split; [lia|]. by destruct ps.
    - replace {| id := id q; name := name p |} with p
        by (destruct p; simpl in *; by rewrite Hq).
      rewrite cleanPlayers_middle; [| |done].
      + rewrite Hsplit, !length_app. simpl. split; [lia|]. by destruct l1.
      + rewrite Hsplit in Hclean. apply Forall_app in Hclean as [H1 H2].
        apply Forall_cons in H2 as [_ H2]. by apply Forall_app. }
  assert (storedIndex db' sid = i) as Hsame.
  { rewrite Hi, normalizePlayers_index, <- Hps.
    destruct (storedPlayers db' sid) as [|x r]; [done|].
    unfold indexInRange in Hindex; simpl in Hindex.
    apply Z.min_l. simpl length in *. destruct ps; simpl length in *; lia. }
  split; [exact Hsame|]. split; [rewrite Hps; apply cleanPlayers_wellFormed|].
  split; [|exact Hlen].
  unfold indexInRange in *; simpl in *. rewrite Hsame.
  destruct (storedPlayers db' sid) as [|x r]; [done|].
  simpl length in *. destruct ps; simpl length in *; lia.
Qed.

Lemma addPlayer_keeps_the_turn_witness :
  storedIndex (Indexed.addPlayerToSession 9%nat sharedStory
                 {| id := js "u3"; name := js "Cy" |} {[ sharedStory := playedSession ]})
    sharedStory
  = storedIndex {[ sharedStory := playedSession ]} sharedStory.
Proof.
  apply addPlayer_keeps_the_turn.
  - reflexivity.
  - unfold storedPlayers. rewrite lookup_singleton_eq. repeat constructor; discriminate.
  - unfold indexInRange, storedPlayers, storedIndex. rewrite lookup_singleton_eq. simpl. lia.
Defined.

(** ** Words in a row, resets and missing documents *)

Section Rotation.

Lemma normalizePlayers_valid ps i :
  Forall wellFormed ps -> 0 <= i < Z.of_nat (length ps) ->
  normalizePlayers ps i = {| normPlayers := ps; activeIndex := i |}.
Proof.
  intros Hclean Hi. unfold normalizePlayers.
  rewrite (cleanPlayers_fixed ps Hclean), length_eqb_nil.
  destruct ps as [|p r]; simpl length in *; [lia|].
  f_equal. apply Z.min_l. lia.
Qed.

Lemma addWordToSession_valid (now : Timestamp) (sid word : jsstring) (db : Store) :
  Forall wellFormed (storedPlayers db sid) ->
  0 <= storedIndex db sid < Z.of_nat (length (storedPlayers db sid)) ->
  let db' := Indexed.addWordToSession now sid word db in
  storedPlayers db' sid = storedPlayers db sid
  /\ storedIndex db' sid
     = (storedIndex db sid + 1) mod Z.of_nat (length (storedPlayers db sid))
  /\ storedWords db' sid = storedWords db sid ++ [trim word].
Proof.
  intros Hclean Hi db'.
  destruct (addWordToSession_stored now sid word db) as (Hps & Hidx & Hws & _).
  fold db' in Hps, Hidx, Hws.
  rewrite (normalizePlayers_valid _ _ Hclean Hi) in Hps, Hidx. simpl in Hps, Hidx.
  split; [exact Hps|]. split; [|exact Hws].
  rewrite Hidx, length_eqb_nil.
  destruct (storedPlayers db sid) as [|p r]; simpl length in *; [lia|].
  apply jsRem_nonneg; lia.
Qed.

Lemma resetSessionStory_stored (now : Timestamp) (sid : jsstring) (db : Store) :
  let db' := Indexed.resetSessionStory now sid db in
  storedPlayers db' sid = storedPlayers db sid
  /\ storedIndex db' sid = 0
  /\ storedWords db' sid = []
  /\ (playerIds <$> db' !! sid) = Some (Some []).
Proof.
  unfold Indexed.resetSessionStory, storedPlayers, storedIndex, storedWords.
  by rewrite lookup_setDocMerge.
Qed.

End Rotation.

(** X10: on a session that satisfies the invariants, [k] words in a
    row leave the players as they are, append the trimmed words in
    order and move the turn [k] places round the table; after as many
    words as there are players the turn is back where it was. *)
Theorem addWords_go_round_the_table
    (now : Timestamp) (sid : jsstring) (ws : list jsstring) (db : Store)
    (Hclean : Forall wellFormed (storedPlayers db sid))
    (Hindex : 0 <= storedIndex db sid < Z.of_nat (length (storedPlayers db sid))) :
  let db' := addWordsToSession now sid ws db in
  let N := Z.of_nat (length (storedPlayers db sid)) in
  storedPlayers db' sid = storedPlayers db sid
  /\ storedIndex db' sid = (storedIndex db sid + Z.of_nat (length ws)) mod N
  /\ storedWords db' sid = storedWords db sid ++ List.map trim ws
  /\ (length ws = length (storedPlayers db sid) -> storedIndex db' sid = storedIndex db sid).
Proof.
  intros db' N.
  assert (storedPlayers db' sid = storedPlayers db sid
          /\ storedIndex db' sid = (storedIndex db sid + Z.of_nat (length ws)) mod N
          /\ storedWords db' sid = storedWords db sid ++ List.map trim ws) as (Hps & Hi & Hws).
  { subst db' N. revert now db Hclean Hindex.
    induction ws as [|w r IH]; intros now db Hclean Hindex; simpl.
    - rewrite Z.add_0_r, app_nil_r. split; [done|]. split; [|done].
      symmetry. by apply Z.mod_small.
    - destruct (addWordToSession_valid now sid w db Hclean Hindex) as (Hps & Hi & Hws).
      set (db1 := Indexed.addWordToSession now sid w db) in *.
      assert (0 < Z.of_nat (length (storedPlayers db sid))) as Hpos by lia.
      destruct (IH (S now) db1) as (Hps' & Hi' & Hws').
      + by rewrite Hps.
      + rewrite Hps, Hi. by apply Z.mod_pos_bound.
      + rewrite Hps' , Hps. split; [done|]. split.
        * rewrite Hi', Hps, Hi, Z.add_mod_idemp_l by lia. f_equal. lia.
        * rewrite Hws', Hws, <- app_assoc. done. }
  split; [exact Hps|]. split; [exact Hi|]. split; [exact Hws|].
  intros Hlen. rewrite Hi, Hlen. fold N.
  replace (storedIndex db sid + N) with (storedIndex db sid + 1 * N) by lia.
  rewrite Z_mod_plus_full. by apply Z.mod_small.
Qed.

Lemma addWords_go_round_the_table_witness :
  storedIndex
    (addWordsToSession 2%nat sharedStory [js "cat"; js "dog"] {[ sharedStory := playedSession ]})
    sharedStory
  = storedIndex {[ sharedStory := playedSession ]} sharedStory.
Proof.
  apply addWords_go_round_the_table.
  - unfold storedPlayers. rewrite lookup_singleton_eq. repeat constructor; discriminate.
  - unfold storedPlayers, storedIndex. rewrite lookup_singleton_eq. simpl. lia.
  - unfold storedPlayers. by rewrite lookup_singleton_eq.
Defined.

(** X11: no write checks that the session exists.  On a missing
    document add-word creates a session with the one word and no
    player, add-player one with the cleaned player alone, and
    reset-story a document that has no [players] field at all, which
    find then reports as an empty session. *)
Theorem writes_create_missing_documents
    (now : Timestamp) (sid : jsstring) (db : Store) (Hmissing : db !! sid = None) :
  (forall word,
     Indexed.addWordToSession now sid word db !! sid
     = Some {| players := Some []; storyWords := Some [trim word];
               activePlayerIndex := Some 0; playerIds := Some [];
               updatedAt := Some now |})
  /\ (forall p,
        Indexed.addPlayerToSession now sid p db !! sid
        = Some {| players := Some (cleanPlayers [p]); storyWords := Some [];
                  activePlayerIndex := Some 0;
                  playerIds := Some (Indexed.mergePlayerIds (cleanPlayers [p]));
                  updatedAt := Some now |})
  /\ Indexed.resetSessionStory now sid db !! sid
     = Some {| players := None; storyWords := Some []; activePlayerIndex := Some 0;
               playerIds := Some []; updatedAt := Some now |}
  /\ Indexed.findSession sid (Indexed.resetSessionStory now sid db)
     = Some {| Indexed.sessionId := sid; Indexed.sessionPlayers := [];
               Indexed.sessionStoryWords := []; Indexed.sessionActivePlayerIndex := 0;
               Indexed.sessionUpdatedAt := Some now |}.
Proof.
  split; [|split; [|split]].
  - intros word. unfold Indexed.addWordToSession.
    rewrite lookup_setDocMerge, Hmissing. reflexivity.
  - intros p.
    destruct (addPlayerToSession_lookup now sid p db) as [H|[(d & Hd & _) _]]; [|congruence].
    rewrite H. unfold storedPlayers, storedWords, storedIndex. rewrite Hmissing.
    unfold normalizePlayers, cleanPlayers. simpl.
    by destruct (keepPlayer p).
  - unfold Indexed.resetSessionStory. rewrite lookup_setDocMerge, Hmissing. reflexivity.
  - unfold Indexed.findSession, Indexed.resetSessionStory.
    rewrite lookup_setDocMerge, Hmissing. reflexivity.
Qed.

Lemma writes_create_missing_documents_witness :
  Indexed.addWordToSession 1%nat sharedStory (js " cat ") ∅ !! sharedStory
  = Some {| players := Some []; storyWords := Some [js "cat"];
            activePlayerIndex := Some 0; playerIds := Some [];
            updatedAt := Some 1%nat |}.
Proof.
  exact (proj1 (writes_create_missing_documents 1%nat sharedStory ∅ (lookup_empty _))
           (js " cat ")).
Defined.

(** X12: ensure-exists is idempotent: a second call, with any seed,
    changes nothing; after the first call the session exists, and no
    other session is touched. *)
Theorem ensureSessionExists_idempotent
    (now1 now2 : Timestamp) (sid : jsstring) (seed1 seed2 : option StorySessionDoc)
    (db : Store) :
  let db1 := Indexed.ensureSessionExists now1 sid seed1 db in
  Indexed.ensureSessionExists now2 sid seed2 db1 = db1
  /\ is_Some (db1 !! sid)
  /\ forall sid', sid <> sid' -> db1 !! sid' = db !! sid'.
Proof.
  intros db1.
  assert (is_Some (db1 !! sid)) as Hsome.
  { subst db1. unfold Indexed.ensureSessionExists, setDoc.
    destruct (db !! sid) as [d|] eqn:E; [by rewrite E|]. by rewrite lookup_insert_eq. }
  split; [|split; [exact Hsome|]].
  - destruct Hsome as [d Hd]. unfold Indexed.ensureSessionExists at 1. by rewrite Hd.
  - intros sid' Hne. subst db1. unfold Indexed.ensureSessionExists, setDoc.
    destruct (db !! sid); [done|]. by rewrite lookup_insert_ne.
Qed.

(** X13: the first word after a reset.  Whatever the session held,
    reset-story followed by add-word leaves the one trimmed word, the
    cleaned players, the turn with the second player (with the only
    player when there is one, 0 when there is none), and a [playerIds]
    that is in sync again. *)
Theorem addWord_after_reset
    (now1 now2 : Timestamp) (sid word : jsstring) (db : Store) :
  let db' := Indexed.addWordToSession now2 sid word (Indexed.resetSessionStory now1 sid db) in
  storedWords db' sid = [trim word]
  /\ storedPlayers db' sid = cleanPlayers (storedPlayers db sid)
  /\ storedIndex db' sid
     = match cleanPlayers (storedPlayers db sid) with
       | [] | [_] => 0
       | _ :: _ :: _ => 1
       end
  /\ exists doc, db' !! sid = Some doc /\ playerIdsInSync doc.
Proof.
  intros db'.
  destruct (resetSessionStory_stored now1 sid db) as (Rps & Ri & Rws & _).
  destruct (addWordToSession_stored now2 sid word (Indexed.resetSessionStory now1 sid db))
    as (Hps & Hi & Hws & _).
  fold db' in Hps, Hi, Hws. rewrite Rps, Ri in Hps, Hi. rewrite Rws in Hws.
  split; [exact Hws|]. split; [exact Hps|]. split.
  - rewrite Hi, normalizePlayers_index, normalizePlayers_players, length_eqb_nil.
    destruct (cleanPlayers (storedPlayers db sid)) as [|p [|q r]]; [done|done|].
    simpl length. unfold jsRem. rewrite Z.min_l by lia. apply Z.rem_small. lia.
  - subst db'. apply addWordToSession_inSync.
Qed.

(** ** Listing, further *)

Section ListingPaths.

Lemma queryPlayerIds_In (u sid : jsstring) (data : StorySessionDoc) (db : Store) :
  In (sid, data) (Indexed.queryPlayerIds u db)
  <-> db !! sid = Some data /\ exists ids, playerIds data = Some ids /\ In u ids.
Proof.
  unfold Indexed.queryPlayerIds. rewrite List.filter_In, getDocs_In.
  unfold Indexed.arrayContains; simpl. split.
  - intros [Hdb Hc]. split; [done|].
    destruct (playerIds data) as [ids|]; [|done]. exists ids. split; [done|].
    apply existsb_exists in Hc as (x & Hx & E). apply bool_decide_eq_true in E. by subst.
  - intros [Hdb (ids & -> & Hin)]. split; [done|].
    apply existsb_exists. exists u. split; [done|]. by apply bool_decide_eq_true.
Qed.

Lemma getSessionsForUser_hit (u : jsstring) (db : Store) :
  Indexed.queryPlayerIds u db <> [] ->
  Indexed.getSessionsForUser u db
  = List.map Indexed.formatSessionDoc (Indexed.queryPlayerIds u db).
Proof.
  intros H. unfold Indexed.getSessionsForUser. rewrite length_map.
  by destruct (Indexed.queryPlayerIds u db).
Qed.

Lemma getSessionsForUser_miss (u : jsstring) (db : Store) :
  Indexed.queryPlayerIds u db = [] ->
  Indexed.getSessionsForUser u db
  = List.filter (Indexed.hasPlayer u) (List.map Indexed.formatSessionDoc (Indexed.getDocs db)).
Proof. intros H. unfold Indexed.getSessionsForUser. by rewrite H. Qed.

Lemma indexed_In (u : jsstring) (db : Store) s :
  In s (List.map Indexed.formatSessionDoc (Indexed.queryPlayerIds u db))
  <-> exists sid data ids,
        db !! sid = Some data /\ playerIds data = Some ids /\ In u ids
        /\ s = Indexed.formatSessionDoc (sid, data).
Proof.
  rewrite List.in_map_iff. split.
  - intros ([sid data] & <- & Hin). apply queryPlayerIds_In in Hin as (Hdb & ids & Hids & Hu).
    by exists sid, data, ids.
  - intros (sid & data & ids & Hdb & Hids & Hu & ->). exists (sid, data).
    split; [done|]. apply queryPlayerIds_In. split; [done|]. by exists ids.
Qed.

Lemma scanned_In (u : jsstring) (db : Store) s :
  In s (List.filter (Indexed.hasPlayer u)
          (List.map Indexed.formatSessionDoc (Indexed.getDocs db)))
  <-> exists sid data,
        db !! sid = Some data /\ s = Indexed.formatSessionDoc (sid, data)
        /\ exists q, In q (cleanPlayers (orElse (players data) [])) /\ id q = u.
Proof.
  rewrite List.filter_In, List.in_map_iff, hasPlayer_true. split.
  - intros [([sid data] & <- & Hin) Hq]. apply getDocs_In in Hin. by exists sid, data.
  - intros (sid & data & Hdb & -> & Hq). split; [|done].
    exists (sid, data). split; [done|]. by apply getDocs_In.
Qed.

End ListingPaths.

(** X14: when the indexed query finds something, list-for-user returns
    the indexed sessions and nothing else: the summaries of the
    documents whose [playerIds] holds the user.  A document without
    [playerIds] is then left out, whoever its players are. *)
Theorem getSessionsForUser_trusts_the_index (u : jsstring) (db : Store)
    (Hhit : Indexed.queryPlayerIds u db <> []) :
  Indexed.getSessionsForUser u db
  = List.map Indexed.formatSessionDoc (Indexed.queryPlayerIds u db)
  /\ (forall s,
        In s (Indexed.getSessionsForUser u db)
        <-> exists sid data ids,
              db !! sid = Some data /\ playerIds data = Some ids /\ In u ids
              /\ s = Indexed.formatSessionDoc (sid, data))
  /\ (forall sid data,
        db !! sid = Some data -> playerIds data = None ->
        forall s, In s (Indexed.getSessionsForUser u db) -> Indexed.sessionId s <> sid).
Proof.
  pose proof (getSessionsForUser_hit u db Hhit) as Heq.
  split; [exact Heq|]. split.
  - intros s. rewrite Heq. apply indexed_In.
  - intros sid data Hdb Hnone s Hs Hsid. rewrite Heq in Hs.
    apply indexed_In in Hs as (sid' & data' & ids & Hdb' & Hids & _ & ->).
    simpl in Hsid. subst sid'. congruence.
Qed.

Lemma getSessionsForUser_trusts_the_index_witness :
  let db : Store := <[js "old" := legacySession]> {[ sharedStory := twoPlayers ]} in
  Indexed.getSessionsForUser (js "u2") db
  = List.map Indexed.formatSessionDoc (Indexed.queryPlayerIds (js "u2") db).
Proof.
  intros db.
  assert (Indexed.queryPlayerIds (js "u2") db <> []) as Hhit.
  { assert (In (sharedStory, twoPlayers) (Indexed.queryPlayerIds (js "u2") db)) as Hin.
    { apply (proj2 (queryPlayerIds_In (js "u2") sharedStory twoPlayers db)). split.
      - subst db. rewrite lookup_insert_ne by discriminate. apply lookup_singleton_eq.
      - exists [js "u1"; js "u2"]. split; [reflexivity|]. right. by left. }
    intros E. rewrite E in Hin. destruct Hin. }
  exact (proj1 (getSessionsForUser_trusts_the_index (js "u2") db Hhit)).
Defined.

(** X15: on a store whose documents all satisfy the invariants (clean
    players, [playerIds] in sync), list-for-user returns exactly the
    sessions that have the user among their players, by whichever path
    it takes. *)
Theorem getSessionsForUser_on_consistent_store (u : jsstring) (db : Store)
    (Hinv : forall sid data, db !! sid = Some data ->
              playerIdsInSync data /\ Forall wellFormed (orElse (players data) [])) :
  forall s,
    In s (Indexed.getSessionsForUser u db)
    <-> exists sid data,
          db !! sid = Some data /\ s = Indexed.formatSessionDoc (sid, data)
          /\ exists q, In q (orElse (players data) []) /\ id q = u.
Proof.
  intros s.
  destruct (Indexed.queryPlayerIds u db) as [|x r] eqn:Q.
  - rewrite (getSessionsForUser_miss u db Q), scanned_In. split.
    + intros (sid & data & Hdb & -> & Hq). exists sid, data.
      destruct (Hinv sid data Hdb) as [_ Hwf]. by rewrite (cleanPlayers_fixed _ Hwf) in Hq.
    + intros (sid & data & Hdb & -> & Hq). exists sid, data.
      destruct (Hinv sid data Hdb) as [_ Hwf]. by rewrite (cleanPlayers_fixed _ Hwf).
  - rewrite getSessionsForUser_hit by by rewrite Q.
    rewrite indexed_In. split.
    + intros (sid & data & ids & Hdb & Hids & Hu & ->). exists sid, data.
      split; [done|]. split; [done|].
      destruct (Hinv sid data Hdb) as [(ids' & Hids' & _ & Hin) _].
      apply Hin. congruence.
    + intros (sid & data & Hdb & -> & Hq).
      destruct (Hinv sid data Hdb) as [(ids & Hids & _ & Hin) _].
      exists sid, data, ids. repeat split; try done. by apply Hin.
Qed.

Lemma getSessionsForUser_on_consistent_store_witness :
  In (Indexed.formatSessionDoc (sharedStory, twoPlayers))
     (Indexed.getSessionsForUser (js "u2") {[ sharedStory := twoPlayers ]}).
Proof.
  assert (forall sid data,
            ({[ sharedStory := twoPlayers ]} : Store) !! sid = Some data ->
            playerIdsInSync data /\ Forall wellFormed (orElse (players data) [])) as Hinv.
  { intros sid data H. apply lookup_singleton_Some in H as [_ <-]. split.
    - apply (mergePlayerIds_inSync [amyTrimmed; bob]). repeat constructor; discriminate.
    - repeat constructor; discriminate. }
  apply (proj2 (getSessionsForUser_on_consistent_store (js "u2") {[ sharedStory := twoPlayers ]}
                  Hinv (Indexed.formatSessionDoc (sharedStory, twoPlayers)))).
  exists sharedStory, twoPlayers. split; [apply lookup_singleton_eq|].
  split; [reflexivity|]. exists bob. split; [right; by left|reflexivity].
Defined.

(** X16: what reset-story costs a player.  When another session still
    lists the user in its [playerIds], the session that was reset is no
    longer returned for the user, although its players are untouched
    and find still returns it. *)
Theorem reset_session_drops_out_of_the_list
    (now : Timestamp) (u sid sid' : jsstring) (db : Store)
    (other : StorySessionDoc) (ids : list jsstring)
    (Hne : sid <> sid') (Hother : db !! sid' = Some other)
    (Hids : playerIds other = Some ids) (Hu : In u ids) :
  let db' := Indexed.resetSessionStory now sid db in
  (forall s, In s (Indexed.getSessionsForUser u db') -> Indexed.sessionId s <> sid)
  /\ In (Indexed.formatSessionDoc (sid', other)) (Indexed.getSessionsForUser u db')
  /\ storedPlayers db' sid = storedPlayers db sid
  /\ is_Some (Indexed.findSession sid db').
Proof.
  intros db'.
  assert (db' !! sid' = Some other) as Hother'.
  { subst db'. unfold Indexed.resetSessionStory. by rewrite lookup_setDocMerge_ne. }
  assert (In (sid', other) (Indexed.queryPlayerIds u db')) as Hin.
  { apply queryPlayerIds_In. split; [done|]. by exists ids. }
  assert (Indexed.queryPlayerIds u db' <> []) as Hhit.
  { intros E. by rewrite E in Hin. }
  rewrite (getSessionsForUser_hit u db' Hhit).
  destruct (resetSessionStory_stored now sid db) as (Hps & _ & _ & Hcleared).
  fold db' in Hps, Hcleared.
  split; [|split; [|split]].
  - intros s Hs Hsid. apply indexed_In in Hs as (k & data & ids' & Hdb & Hids' & Hu' & ->).
    simpl in Hsid. subst k. rewrite Hdb in Hcleared. simpl in Hcleared.
    assert (ids' = []) as -> by congruence. done.
  - by apply List.in_map.
  - exact Hps.
  - unfold Indexed.findSession. destruct (db' !! sid); [by eexists|done].
Qed.

Lemma reset_session_drops_out_of_the_list_witness :
  let db : Store := <[js "other" := twoPlayers]> {[ sharedStory := playedSession ]} in
  In (Indexed.formatSessionDoc (js "other", twoPlayers))
     (Indexed.getSessionsForUser (js "u1") (Indexed.resetSessionStory 9%nat sharedStory db)).
Proof.
  intros db.
  assert (sharedStory <> js "other") as Hne by discriminate.
  assert (db !! js "other" = Some twoPlayers) as Hother by (subst db; apply lookup_insert_eq).
  exact (proj1 (proj2 (reset_session_drops_out_of_the_list 9%nat (js "u1") sharedStory
                         (js "other") db twoPlayers [js "u1"; js "u2"]
                         Hne Hother eq_refl (or_introl eq_refl)))).
Defined.

(** ** The older revision, further *)

(** X17: on ensure-exists, reset-story and the subscription too, the
    two revisions differ in [playerIds] only.  The stores they leave
    agree on players, words, index and time stamp of every session, the
    states they deliver agree on players, words and index, and the
    older reset-story leaves [players] and [playerIds] as they were, so
    that it keeps the two in sync where the newer one does not. *)
Theorem legacy_differs_in_playerIds_only
    (now : Timestamp) (sid : jsstring) (seed : option StorySessionDoc) (db : Store) :
  (forall k,
     let a := Legacy.ensureSessionExists now sid seed db !! k in
     let b := Indexed.ensureSessionExists now sid seed db !! k in
     (players <$> a) = (players <$> b) /\ (storyWords <$> a) = (storyWords <$> b)
     /\ (activePlayerIndex <$> a) = (activePlayerIndex <$> b)
     /\ (updatedAt <$> a) = (updatedAt <$> b))
  /\ (forall k,
        let a := Legacy.resetSessionStory now sid db !! k in
        let b := Indexed.resetSessionStory now sid db !! k in
        (players <$> a) = (players <$> b) /\ (storyWords <$> a) = (storyWords <$> b)
        /\ (activePlayerIndex <$> a) = (activePlayerIndex <$> b)
        /\ (updatedAt <$> a) = (updatedAt <$> b))
  /\ (let a := Legacy.subscribeToSession sid db in
      let b := Indexed.subscribeToSession sid db in
      (players <$> a) = (players <$> b) /\ (storyWords <$> a) = (storyWords <$> b)
      /\ (activePlayerIndex <$> a) = (activePlayerIndex <$> b))
  /\ (forall data, db !! sid = Some data ->
        exists data',
          Legacy.resetSessionStory now sid db !! sid = Some data'
          /\ players data' = players data /\ playerIds data' = playerIds data
          /\ (playerIdsInSync data -> playerIdsInSync data')).
Proof.
  split; [|split; [|split]].
  - intros k. unfold Legacy.ensureSessionExists, Indexed.ensureSessionExists, setDoc.
    destruct (db !! sid) as [d|]; simpl; [done|].
    destruct (decide (sid = k)) as [->|Hne].
    + by rewrite !lookup_insert_eq.
    + by rewrite !lookup_insert_ne.
  - intros k. unfold Legacy.resetSessionStory, Indexed.resetSessionStory.
    destruct (decide (sid = k)) as [->|Hne].
    + by rewrite !lookup_setDocMerge.
    + by rewrite !lookup_setDocMerge_ne.
  - unfold Legacy.subscribeToSession, Indexed.subscribeToSession.
    by destruct (db !! sid).
  - intros data Hdb. unfold Legacy.resetSessionStory.
    rewrite lookup_setDocMerge, Hdb. eexists. split; [reflexivity|]. simpl.
    split; [done|]. split; [done|].
    intros (ids & Hids & Hnd & Hin). by exists ids.
Qed.

Lemma legacy_differs_in_playerIds_only_witness :
  exists data',
    Legacy.resetSessionStory 9%nat sharedStory {[ sharedStory := playedSession ]} !! sharedStory
    = Some data'
    /\ playerIds data' = Some [js "u1"; js "u2"].
Proof.
  destruct (proj2 (proj2 (proj2 (legacy_differs_in_playerIds_only 9%nat sharedStory None
                                   {[ sharedStory := playedSession ]})))
              playedSession (lookup_singleton_eq _ _)) as (data' & H & _ & Hids & _).
  exists data'. split; [exact H|exact Hids].
Defined.

(** * The screens *)

Section ScreenFacts.

Lemma hasWhiteSpace_false (s : jsstring) :
  hasWhiteSpace s = false <-> Forall (fun c => isWhiteSpace c = false) s.
Proof.
  unfold hasWhiteSpace. induction s as [|c r IH]; simpl.
  - split; [constructor|done].
  - rewrite orb_false_iff, IH. split.
    + intros [Hc Hr]. by constructor.
    + intros H. by apply Forall_cons in H.
Qed.

Lemma lookup_map {A B} (f : A -> B) (l : list A) (i : nat) :
  List.map f l !! i = f <$> (l !! i).
Proof. revert i. induction l as [|x r IH]; intros [|i]; simpl; done. Qed.

Lemma arrayAt_Some {A} (xs : list A) (i : Z) (x : A) :
  arrayAt xs i = Some x <-> 0 <= i /\ xs !! Z.to_nat i = Some x.
Proof.
  unfold arrayAt. destruct (Z.ltb_spec i 0).
  - split; [done|]. intros [? _]. lia.
  - split; [done|]. by intros [_ ?].
Qed.

Lemma deliver_existing (sid : jsstring) (db : Store) (st : StoryScreen.State) :
  is_Some (db !! sid) ->
  StoryScreen.deliver sid db st
  = {| StoryScreen.viewPlayers := cleanPlayers (storedPlayers db sid);
       StoryScreen.viewActivePlayerIndex :=
         activeIndex (normalizePlayers (storedPlayers db sid) (storedIndex db sid));
       StoryScreen.viewStoryWords := storedWords db sid;
       StoryScreen.wordInput := StoryScreen.wordInput st;
       StoryScreen.newPlayerInput := StoryScreen.newPlayerInput st;
       StoryScreen.user := StoryScreen.user st |}.
Proof.
  intros [data Hdb]. destruct (stored_of_lookup sid db data Hdb) as (Hp & Hi & Hw).
  unfold StoryScreen.deliver, Indexed.subscribeToSession. rewrite Hdb.
  unfold StoryScreen.onChange; simpl. by rewrite Hp, Hi, Hw.
Qed.

Lemma deliver_missing (sid : jsstring) (db : Store) (st : StoryScreen.State) :
  db !! sid = None -> StoryScreen.deliver sid db st = st.
Proof.
  intros H. unfold StoryScreen.deliver, Indexed.subscribeToSession. by rewrite H.
Qed.

Lemma addWordToSession_exists (now : Timestamp) (sid word : jsstring) (db : Store) :
  is_Some (Indexed.addWordToSession now sid word db !! sid).
Proof. unfold Indexed.addWordToSession. rewrite lookup_setDocMerge. by eexists. Qed.

Lemma addPlayerToSession_exists (now : Timestamp) (sid : jsstring) (p : Player) (db : Store) :
  is_Some (Indexed.addPlayerToSession now sid p db !! sid).
Proof. unfold Indexed.addPlayerToSession. rewrite lookup_setDocMerge. by eexists. Qed.

Lemma canSubmitWord_active (st : StoryScreen.State) :
  StoryScreen.canSubmitWord st = true ->
  exists u p,
    StoryScreen.user st = Some u
    /\ arrayAt (StoryScreen.viewPlayers st) (StoryScreen.viewActivePlayerIndex st) = Some p
    /\ id p = uid u.
Proof.
  intros Hcan. apply andb_true_iff in Hcan as [Hcan Hact].
  apply andb_true_iff in Hcan as [Hhas _].
  unfold StoryScreen.isActivePlayer, StoryScreen.activePlayer in Hact. rewrite Hhas in Hact.
  destruct (StoryScreen.user st) as [u|]; [|done].
  destruct (arrayAt _ _) as [p|]; [|done].
  exists u, p. apply bool_decide_eq_true in Hact. done.
Qed.

End ScreenFacts.

(** X18: the story screen submits single words only.  When the word
    cannot be submitted nothing happens; when it can, the store gets
    exactly one more word, the trimmed input, which is not empty and
    holds no white space, and the input field is cleared. *)
Theorem handleAddWord_submits_single_words
    (now : Timestamp) (sid : jsstring) (st : StoryScreen.State) (db : Store) :
  (StoryScreen.canSubmitWord st = false -> StoryScreen.handleAddWord now sid st db = (st, db))
  /\ (StoryScreen.canSubmitWord st = true ->
        let word := trim (StoryScreen.wordInput st) in
        let st' := fst (StoryScreen.handleAddWord now sid st db) in
        let db' := snd (StoryScreen.handleAddWord now sid st db) in
        storedWords db' sid = storedWords db sid ++ [word]
        /\ word <> []
        /\ Forall (fun c => isWhiteSpace c = false) word
        /\ StoryScreen.wordInput st' = []
        /\ forall sid', sid <> sid' -> db' !! sid' = db !! sid').
Proof.
  unfold StoryScreen.handleAddWord. split.
  - by intros ->.
  - intros Hcan. rewrite Hcan. simpl.
    destruct (addWordToSession_stored now sid (StoryScreen.sanitizedWord st) db)
      as (_ & _ & Hws & _).
    unfold StoryScreen.canSubmitWord, StoryScreen.isSingleWord in Hcan.
    apply andb_true_iff in Hcan as [Hcan _]. apply andb_true_iff in Hcan as [_ Hcan].
    apply andb_true_iff in Hcan as [Hne Hws'].
    apply negb_true_iff, hasWhiteSpace_false in Hws'. apply Boolean_true in Hne.
    unfold StoryScreen.sanitizedWord in *.
    split; [by rewrite Hws, trim_idem|]. split; [done|]. split; [done|]. split; [done|].
    intros sid' Hne'. unfold Indexed.addWordToSession. by apply lookup_setDocMerge_ne.
Qed.

Lemma handleAddWord_submits_single_words_witness :
  let st := {| StoryScreen.viewPlayers := [amyTrimmed; bob];
               StoryScreen.viewActivePlayerIndex := 0;
               StoryScreen.viewStoryWords := [];
               StoryScreen.wordInput := js " cat ";
               StoryScreen.newPlayerInput := [];
               StoryScreen.user := Some {| uid := js "u1"; displayName := None; email := None |} |} in
  storedWords (snd (StoryScreen.handleAddWord 2%nat sharedStory st {[ sharedStory := twoPlayers ]}))
    sharedStory
  = storedWords {[ sharedStory := twoPlayers ]} sharedStory ++ [js "cat"].
Proof.
  intros st.
  exact (proj1 (proj2 (handleAddWord_submits_single_words 2%nat sharedStory st
                         {[ sharedStory := twoPlayers ]}) eq_refl)).
Defined.

(** X19: only the signed-in player whose turn it is can add a word:
    without a user, without players, or when the player at the active
    index is missing or has another id, the handler leaves the state
    and the store as they are. *)
Theorem handleAddWord_needs_the_active_player
    (now : Timestamp) (sid : jsstring) (st : StoryScreen.State) (db : Store) :
  (StoryScreen.user st = None -> StoryScreen.handleAddWord now sid st db = (st, db))
  /\ (StoryScreen.viewPlayers st = [] -> StoryScreen.handleAddWord now sid st db = (st, db))
  /\ (arrayAt (StoryScreen.viewPlayers st) (StoryScreen.viewActivePlayerIndex st) = None ->
        StoryScreen.handleAddWord now sid st db = (st, db))
  /\ (forall u p,
        StoryScreen.user st = Some u ->
        arrayAt (StoryScreen.viewPlayers st) (StoryScreen.viewActivePlayerIndex st) = Some p ->
        id p <> uid u ->
        StoryScreen.handleAddWord now sid st db = (st, db))
  /\ (StoryScreen.canSubmitWord st = true ->
        exists u p,
          StoryScreen.user st = Some u
          /\ arrayAt (StoryScreen.viewPlayers st) (StoryScreen.viewActivePlayerIndex st) = Some p
          /\ id p = uid u).
Proof.
  assert (forall b, b = false ->
            StoryScreen.hasPlayers st && StoryScreen.isSingleWord st && b = false) as Hoff.
  { intros b ->. apply andb_false_r. }
  unfold StoryScreen.handleAddWord, StoryScreen.canSubmitWord.
  split; [|split; [|split; [|split]]].
  - intros Hu. rewrite Hoff; [done|]. unfold StoryScreen.isActivePlayer. by rewrite Hu.
  - intros Hps. unfold StoryScreen.hasPlayers. by rewrite Hps.
  - intros Hat. rewrite Hoff; [done|].
    unfold StoryScreen.isActivePlayer, StoryScreen.activePlayer. rewrite Hat.
    by destruct (StoryScreen.user st), (StoryScreen.hasPlayers st).
  - intros u p Hu Hat Hid. rewrite Hoff; [done|].
    unfold StoryScreen.isActivePlayer, StoryScreen.activePlayer. rewrite Hu, Hat.
    destruct (StoryScreen.hasPlayers st); [|done]. by apply bool_decide_eq_false.
  - apply canSubmitWord_active.
Qed.

(** X20: nobody adds two words in a row.  With at least two players of
    distinct ids and a stored index that is not negative, the player
    who has just added a word cannot add another one once the new
    state is delivered, whatever is typed. *)
Theorem no_two_words_in_a_row
    (now : Timestamp) (sid : jsstring) (st st2 : StoryScreen.State) (db : Store)
    (Hdistinct : List.NoDup (List.map id (cleanPlayers (storedPlayers db sid))))
    (Htwo : (2 <= length (cleanPlayers (storedPlayers db sid)))%nat)
    (Hindex : 0 <= storedIndex db sid)
    (Hcan : StoryScreen.canSubmitWord (StoryScreen.deliver sid db st) = true)
    (Huser : StoryScreen.user st2 = StoryScreen.user st) :
  let db' := snd (StoryScreen.handleAddWord now sid (StoryScreen.deliver sid db st) db) in
  StoryScreen.canSubmitWord (StoryScreen.deliver sid db' st2) = false.
Proof.
  intros db'.
  set (P := cleanPlayers (storedPlayers db sid)) in *.
  set (N := Z.of_nat (length P)).
  assert (2 <= N) as HN by (subst N; lia).
  assert (is_Some (db !! sid)) as Hsome.
  { destruct (db !! sid) eqn:E; [by eexists|].
    subst P. unfold storedPlayers in Htwo. rewrite E in Htwo. simpl in Htwo. lia. }
  set (i0 := activeIndex (normalizePlayers (storedPlayers db sid) (storedIndex db sid))).
  assert (0 <= i0 < N) as Hi0.
  { subst i0. rewrite normalizePlayers_index. fold P. fold N.
    destruct P; simpl length in *; [lia|]. lia. }
  destruct (canSubmitWord_active _ Hcan) as (u & p & Hu & Hat & Hid).
  rewrite (deliver_existing sid db st Hsome) in Hu, Hat.
  cbn [StoryScreen.viewPlayers StoryScreen.viewActivePlayerIndex StoryScreen.user] in Hu, Hat.
  fold P in Hat. fold i0 in Hat. apply arrayAt_Some in Hat as [_ Hat].
  assert (db' = Indexed.addWordToSession now sid
                  (StoryScreen.sanitizedWord (StoryScreen.deliver sid db st)) db) as Hdb'.
  { subst db'. unfold StoryScreen.handleAddWord. by rewrite Hcan. }
  destruct (addWordToSession_stored now sid
              (StoryScreen.sanitizedWord (StoryScreen.deliver sid db st)) db)
    as (Hps & Hidx & _).
  rewrite <- Hdb' in Hps, Hidx.
  rewrite normalizePlayers_players in Hps, Hidx. fold P in Hps, Hidx.
  fold i0 in Hidx. fold N in Hidx. rewrite length_eqb_nil in Hidx.
  assert (P <> []) as HPne by (intros E; rewrite E in Htwo; simpl in Htwo; lia).
  assert (storedIndex db' sid = (i0 + 1) mod N) as Hj.
  { rewrite Hidx. destruct P; [done|]. apply jsRem_nonneg; lia. }
  assert (0 <= (i0 + 1) mod N < N) as Hjr by (apply Z.mod_pos_bound; lia).
  assert ((i0 + 1) mod N <> i0) as Hmoved.
  { destruct (Z.eq_dec (i0 + 1) N) as [E|E].
    - rewrite E, Z.mod_same by lia. lia.
    - rewrite Z.mod_small by lia. lia. }
  assert (cleanPlayers P = P) as HPP by (unfold P; apply cleanPlayers_idem).
  assert (activeIndex (normalizePlayers P ((i0 + 1) mod N)) = (i0 + 1) mod N) as Hview.
  { rewrite normalizePlayers_index, HPP. fold N. destruct P; [done|]. lia. }
  rewrite (deliver_existing sid db' st2) by (rewrite Hdb'; apply addWordToSession_exists).
  rewrite Hps, Hj, HPP, Hview.
  unfold StoryScreen.canSubmitWord, StoryScreen.isActivePlayer, StoryScreen.activePlayer.
  cbn [StoryScreen.viewPlayers StoryScreen.viewActivePlayerIndex StoryScreen.user].
  rewrite Huser, Hu.
  apply andb_false_iff. right.
  destruct (StoryScreen.hasPlayers _); [|done].
  destruct (arrayAt P ((i0 + 1) mod N)) as [p'|] eqn:Hat'; [|done].
  apply arrayAt_Some in Hat' as [_ Hat'].
  apply bool_decide_eq_false. intros Hsame.
  apply Hmoved.
  assert (Z.to_nat ((i0 + 1) mod N) = Z.to_nat i0) as Heq.
  { apply NoDup_ListNoDup in Hdistinct.
    apply (NoDup_lookup _ _ _ (id p) Hdistinct).
    - rewrite lookup_map, Hat'. simpl. congruence.
    - by rewrite lookup_map, Hat. }
  lia.
Qed.

Lemma no_two_words_in_a_row_witness :
  let st := {| StoryScreen.viewPlayers := [];
               StoryScreen.viewActivePlayerIndex := 0;
               StoryScreen.viewStoryWords := [];
               StoryScreen.wordInput := js "cat";
               StoryScreen.newPlayerInput := [];
               StoryScreen.user := Some {| uid := js "u1"; displayName := None; email := None |} |} in
  let db : Store := {[ sharedStory := twoPlayers ]} in
  StoryScreen.canSubmitWord
    (StoryScreen.deliver sharedStory
       (snd (StoryScreen.handleAddWord 2%nat sharedStory (StoryScreen.deliver sharedStory db st) db))
       st)
  = false.
Proof.
  intros st db.
  assert (storedPlayers db sharedStory = [amyTrimmed; bob]) as Hps.
  { unfold storedPlayers. subst db. by rewrite lookup_singleton_eq. }
  assert (storedIndex db sharedStory = 0) as Hi.
  { unfold storedIndex. subst db. by rewrite lookup_singleton_eq. }
  apply (no_two_words_in_a_row 2%nat sharedStory st st db).
  - rewrite Hps. repeat constructor; simpl; intros H.
    + destruct H as [H|[]]. discriminate.
    + destruct H.
  - by rewrite Hps.
  - by rewrite Hi.
  - rewrite deliver_existing by (subst db; rewrite lookup_singleton_eq; by eexists).
    rewrite Hps, Hi. reflexivity.
  - reflexivity.
Defined.

Section Joining.

Lemma jsOrString_nonempty (a : option jsstring) (b : jsstring) :
  b <> [] -> jsOrString a b <> [].
Proof. intros Hb. by destruct a as [[|c r]|]. Qed.

Lemma addPlayer_stores_kept_player (now : Timestamp) (sid : jsstring) (p : Player) (db : Store) :
  keepPlayer p = true ->
  In (trimName p) (storedPlayers (Indexed.addPlayerToSession now sid p db) sid).
Proof.
  intros Hp. destruct (addPlayerToSession_stored now sid p db) as (-> & _).
  apply cleanPlayers_In. exists p. split; [apply upsertPlayer_In|done].
Qed.

End Joining.

(** X21: add-player on the story screen.  Without a user nothing
    happens.  With one, the name sent is never empty: it is the trimmed
    input when that is not blank, else the display name, the e-mail or
    "Player"; and when the user id is not empty and the name not blank,
    the user is among the stored players under the trimmed name, and
    the input field is cleared. *)
Theorem handleAddPlayer_adds_the_user
    (now : Timestamp) (sid : jsstring) (st : StoryScreen.State) (db : Store) :
  (StoryScreen.user st = None -> StoryScreen.handleAddPlayer now sid st db = (st, db))
  /\ forall u,
       StoryScreen.user st = Some u ->
       let name := StoryScreen.playerName st u in
       let st' := fst (StoryScreen.handleAddPlayer now sid st db) in
       let db' := snd (StoryScreen.handleAddPlayer now sid st db) in
       name <> []
       /\ (trim (StoryScreen.newPlayerInput st) <> [] ->
             name = trim (StoryScreen.newPlayerInput st))
       /\ (trim (StoryScreen.newPlayerInput st) = [] ->
             name = jsOrString (jsOr (displayName u) (email u)) (js "Player"))
       /\ StoryScreen.newPlayerInput st' = []
       /\ (uid u <> [] -> trim name <> [] ->
             In {| id := uid u; name := trim name |} (storedPlayers db' sid)).
Proof.
  unfold StoryScreen.handleAddPlayer. split.
  - by intros ->.
  - intros u Hu. rewrite Hu. unfold StoryScreen.canAddPlayer. rewrite Hu. simpl.
    split; [apply jsOrString_nonempty; discriminate|]. split; [|split; [|split]].
    + unfold StoryScreen.playerName.
      by destruct (trim (StoryScreen.newPlayerInput st)).
    + unfold StoryScreen.playerName. intros ->. simpl.
      by destruct (displayName u) as [[|c r]|].
    + done.
    + intros Hid Hname.
      apply (addPlayer_stores_kept_player now sid
               {| id := uid u; name := StoryScreen.playerName st u |} db).
      apply keepPlayer_true. by split.
Qed.

Lemma handleAddPlayer_adds_the_user_witness :
  let st := {| StoryScreen.viewPlayers := [];
               StoryScreen.viewActivePlayerIndex := 0;
               StoryScreen.viewStoryWords := [];
               StoryScreen.wordInput := [];
               StoryScreen.newPlayerInput := js " Amy ";
               StoryScreen.user := Some {| uid := js "u1"; displayName := None; email := None |} |} in
  In amyTrimmed (storedPlayers (snd (StoryScreen.handleAddPlayer 2%nat sharedStory st ∅)) sharedStory).
Proof.
  intros st.
  refine (proj2 (proj2 (proj2 (proj2
            (proj2 (handleAddPlayer_adds_the_user 2%nat sharedStory st ∅) _ eq_refl)))) _ _);
    discriminate.
Defined.

(** X22: joining a story from the discover screen puts it on the
    user's list.  When the user id is not empty and the name sent (the
    display name, else the e-mail, else "Player") is not blank, the
    story is returned by list-for-user right after the join, with the
    user among its players.  Without a user or a found story the join
    does nothing. *)
Theorem handleJoin_puts_the_story_on_the_list
    (now : Timestamp) (u : User) (s : Indexed.SessionSummary) (db : Store)
    (Hid : uid u <> []) (Hname : trim (DiscoverScreen.joinName u) <> []) :
  let db' := DiscoverScreen.handleJoin now (Some u) (Some s) db in
  (exists s',
     In s' (Indexed.getSessionsForUser (uid u) db')
     /\ Indexed.sessionId s' = Indexed.sessionId s
     /\ In {| id := uid u; name := trim (DiscoverScreen.joinName u) |}
          (Indexed.sessionPlayers s'))
  /\ DiscoverScreen.handleJoin now None (Some s) db = db
  /\ DiscoverScreen.handleJoin now (Some u) None db = db.
Proof.
  intros db'. split; [|done].
  set (sid := Indexed.sessionId s).
  set (p := {| id := uid u; name := DiscoverScreen.joinName u |}).
  set (db1 := Indexed.ensureSessionExists now sid None db).
  assert (db' = Indexed.addPlayerToSession (S now) sid p db1) as Hdb' by done.
  assert (keepPlayer p = true) as Hp by (apply keepPlayer_true; by split).
  destruct (addPlayerToSession_stored (S now) sid p db1) as (Hps & _ & _ & Hids & _).
  rewrite <- Hdb' in Hps, Hids.
  destruct (db' !! sid) as [data|] eqn:Hdata; [|done].
  simpl in Hids. injection Hids as Hids.
  assert (In (trimName p) (cleanPlayers (upsertPlayer (storedPlayers db1 sid) p))) as Hin.
  { apply cleanPlayers_In. exists p. split; [apply upsertPlayer_In|done]. }
  assert (In (sid, data) (Indexed.queryPlayerIds (uid u) db')) as Hq.
  { apply queryPlayerIds_In. split; [done|]. eexists. split; [exact Hids|].
    apply mergePlayerIds_In. split; [done|]. by exists (trimName p). }
  assert (Indexed.queryPlayerIds (uid u) db' <> []) as Hhit.
  { intros E. by rewrite E in Hq. }
  exists (Indexed.formatSessionDoc (sid, data)).
  rewrite (getSessionsForUser_hit _ _ Hhit). split; [by apply List.in_map|].
  split; [done|]. simpl.
  destruct (stored_of_lookup sid db' data Hdata) as (-> & _).
  by rewrite Hps, cleanPlayers_idem.
Qed.

Lemma handleJoin_puts_the_story_on_the_list_witness :
  let u := {| uid := js "u7"; displayName := None; email := Some (js "zed@example.org") |} in
  let s := Indexed.formatSessionDoc (sharedStory, twoPlayers) in
  exists s',
    In s' (Indexed.getSessionsForUser (js "u7")
             (DiscoverScreen.handleJoin 5%nat (Some u) (Some s) {[ sharedStory := twoPlayers ]}))
    /\ Indexed.sessionId s' = sharedStory.
Proof.
  intros u s.
  destruct (handleJoin_puts_the_story_on_the_list 5%nat u s {[ sharedStory := twoPlayers ]})
    as [(s' & Hin & Hsid & _) _]; [discriminate|discriminate|].
  exists s'. split; [exact Hin|exact Hsid].
Defined.

(** X23: the discover screen searches by the trimmed id.  White space
    around the id makes no difference; a blank id is not searched; a
    found story carries the trimmed id and exists in the store; "no
    story" means that the trimmed id is not blank and not in the
    store. *)
Theorem handleSearch_uses_the_trimmed_id (input : jsstring) (db : Store) :
  DiscoverScreen.handleSearch input db = DiscoverScreen.handleSearch (trim input) db
  /\ (DiscoverScreen.handleSearch input db = DiscoverScreen.NotSearched <-> trim input = [])
  /\ (forall s, DiscoverScreen.handleSearch input db = DiscoverScreen.Found s ->
        Indexed.sessionId s = trim input /\ is_Some (db !! trim input))
  /\ (DiscoverScreen.handleSearch input db = DiscoverScreen.NoStory <->
        trim input <> [] /\ db !! trim input = None).
Proof.
  unfold DiscoverScreen.handleSearch, Indexed.findSession. rewrite trim_idem.
  split; [done|].
  destruct (trim input) as [|c r] eqn:E; simpl.
  - split; [done|]. split; [done|]. split; [done|]. by intros [? _].
  - destruct (db !! (c :: r)) as [data|] eqn:Hdb.
    + split; [done|]. split; [|split; [done|by intros [_ ?]]].
      intros s [= <-]. split; [done|]. by eexists.
    + split; [done|]. split; [done|]. done.
Qed.

(** X24: bootstrap of the story screens.  An existing session is left
    as it is, whatever it holds; afterwards the session exists and the
    screen shows its normalized players, words and index, which for a
    new session is no player, no word and index 0; a later bootstrap,
    on this or another screen, changes nothing in the store. *)
Theorem bootstrap_delivers_the_session
    (now : Timestamp) (sid : jsstring) (st : StoryScreen.State) (db : Store) :
  let st' := fst (StoryScreen.bootstrap now sid st db) in
  let db' := snd (StoryScreen.bootstrap now sid st db) in
  (is_Some (db !! sid) -> db' = db)
  /\ is_Some (db' !! sid)
  /\ (forall sid', sid <> sid' -> db' !! sid' = db !! sid')
  /\ StoryScreen.viewPlayers st' = cleanPlayers (storedPlayers db' sid)
  /\ Forall wellFormed (StoryScreen.viewPlayers st')
  /\ StoryScreen.viewStoryWords st' = storedWords db' sid
  /\ StoryScreen.viewActivePlayerIndex st'
     = activeIndex (normalizePlayers (storedPlayers db' sid) (storedIndex db' sid))
  /\ (db !! sid = None ->
        StoryScreen.viewPlayers st' = [] /\ StoryScreen.viewStoryWords st' = []
        /\ StoryScreen.viewActivePlayerIndex st' = 0)
  /\ (forall now2 st2, snd (StoryScreen.bootstrap now2 sid st2 db') = db').
Proof.
  intros st' db'.
  set (db1 := Indexed.ensureSessionExists now sid (Some StoryScreen.bootstrapSeed) db).
  assert (is_Some (db1 !! sid)) as Hsome.
  { subst db1. unfold Indexed.ensureSessionExists, setDoc.
    destruct (db !! sid) as [d|] eqn:E; [by rewrite E|]. by rewrite lookup_insert_eq. }
  assert (db' = db1) as Hdb'.
  { subst db'. unfold StoryScreen.bootstrap. cbv zeta. cbn [snd]. done. }
  assert (st' = StoryScreen.deliver sid db1 st) as Hst'.
  { subst st'. unfold StoryScreen.bootstrap. cbv zeta. cbn [fst]. done. }
  rewrite Hdb', Hst', (deliver_existing sid db1 st Hsome).
  cbn [StoryScreen.viewPlayers StoryScreen.viewActivePlayerIndex StoryScreen.viewStoryWords].
  split.
  { intros [d Hd]. subst db1. unfold Indexed.ensureSessionExists. by rewrite Hd. }
  split; [done|]. split.
  { intros sid' Hne. subst db1. unfold Indexed.ensureSessionExists, setDoc.
    destruct (db !! sid); [done|]. by rewrite lookup_insert_ne. }
  split; [done|]. split; [apply cleanPlayers_wellFormed|]. split; [done|]. split; [done|].
  split.
  - intros Hnone. subst db1. unfold storedPlayers, storedWords, storedIndex.
    unfold Indexed.ensureSessionExists, setDoc. rewrite Hnone, lookup_insert_eq. done.
  - intros now2 st2. unfold StoryScreen.bootstrap. cbv zeta. cbn [snd].
    destruct Hsome as [d Hd]. unfold Indexed.ensureSessionExists at 1. by rewrite Hd.
Qed.

Lemma bootstrap_delivers_the_session_witness :
  let st := {| StoryScreen.viewPlayers := [bob];
               StoryScreen.viewActivePlayerIndex := 3;
               StoryScreen.viewStoryWords := [];
               StoryScreen.wordInput := [];
               StoryScreen.newPlayerInput := [];
               StoryScreen.user := None |} in
  StoryScreen.viewPlayers (fst (StoryScreen.bootstrap 1%nat sharedStory st ∅)) = []
  /\ snd (StoryScreen.bootstrap 1%nat sharedStory st {[ sharedStory := playedSession ]})
     = {[ sharedStory := playedSession ]}.
Proof.
  intros st. split.
  - destruct (bootstrap_delivers_the_session 1%nat sharedStory st ∅)
      as (_ & _ & _ & _ & _ & _ & _ & Hnew & _).
    exact (proj1 (Hnew (lookup_empty _))).
  - destruct (bootstrap_delivers_the_session 1%nat sharedStory st
                {[ sharedStory := playedSession ]}) as (Hkeep & _).
    apply Hkeep. rewrite lookup_singleton_eq. by eexists.
Defined.

(** ** The local game *)

Section LocalGameFacts.

Lemma trim_trimmedText (s : jsstring) : Boolean (trim s) = true -> LocalGame.trimmedText (trim s).
Proof. intros H. split; [by apply Boolean_true|apply trim_idem]. Qed.

Lemma localGame_step_valid (st : LocalGame.State) (e : LocalGame.Event) :
  LocalGame.valid st -> LocalGame.valid (LocalGame.step st e).
Proof.
  intros Hst. pose proof Hst as (Hi & (added & Hps & Hadded) & Hws & Hfirst).
  destruct e as [text|text| | |]; simpl.
  - unfold LocalGame.valid; simpl. split; [done|]. split; [by exists added|]. by split.
  - unfold LocalGame.valid; simpl. split; [done|]. split; [by exists added|]. by split.
  - unfold LocalGame.handleAddWord, LocalGame.canSubmitWord.
    destruct (LocalGame.hasPlayers st); simpl; [|exact Hst].
    destruct (Boolean (trim (LocalGame.wordInput st))) eqn:B; simpl; [|exact Hst].
    unfold LocalGame.valid; simpl. rewrite length_eqb_nil.
    destruct (LocalGame.players st) as [|p r] eqn:E; simpl length in *; [lia|].
    split; [|split; [by exists added|split]].
    + unfold jsRem. rewrite Z.rem_mod_nonneg by lia. apply Z.mod_pos_bound. lia.
    + apply Forall_app. split; [done|]. constructor; [by apply trim_trimmedText|constructor].
    + intros H. by destruct (LocalGame.storyWords st).
  - unfold LocalGame.handleAddPlayer, LocalGame.canAddPlayer.
    destruct (Boolean (trim (LocalGame.newPlayerInput st))) eqn:B; simpl; [|exact Hst].
    unfold LocalGame.valid; simpl. rewrite length_app. simpl.
    split; [lia|]. split; [|by split].
    exists (added ++ [trim (LocalGame.newPlayerInput st)]).
    split; [by rewrite Hps, <- app_assoc|]. apply Forall_app. split; [done|].
    constructor; [by apply trim_trimmedText|constructor].
  - unfold LocalGame.handleResetStory, LocalGame.valid; simpl.
    split; [lia|]. split; [by exists added|]. by split.
Qed.

End LocalGameFacts.

(** X25: the local game never loses the turn.  After any sequence of
    edits, word and player submissions and resets from the initial
    screen, the active index is a position in the player list, the
    list still starts with the three initial players, every added
    player and every word is a non-empty trimmed text, and the turn is
    with the first player while the story is empty. *)
Theorem localGame_stays_valid (es : list LocalGame.Event) :
  LocalGame.valid (LocalGame.run LocalGame.initial es).
Proof.
  assert (forall st, LocalGame.valid st -> LocalGame.valid (LocalGame.run st es)) as Hrun.
  { unfold LocalGame.run. induction es as [|e r IH]; intros st Hst; simpl; [done|].
    by apply IH, localGame_step_valid. }
  apply Hrun. unfold LocalGame.valid; simpl.
  split; [lia|]. split; [by exists []|]. by split.
Qed.

(** ** The Firebase handle *)

Section FirebaseFacts.

Lemma falsy_true (v : option jsstring) : Firebase.falsy v = true <-> v = None \/ v = Some [].
Proof. destruct v as [[|c r]|]; simpl; split; try tauto; try done; intros [?|?]; done. Qed.

End FirebaseFacts.

(** X26: the first call with an incomplete configuration fails and
    changes nothing.  The missing keys are the option names whose value
    is unset or empty, in the order of the configuration; when there is
    one, the call throws the message that lists them and leaves the
    runtime as it was; when there is none, it returns the SDK's app if
    one exists, a new app on the configuration otherwise, and keeps
    it. *)
Theorem ensureApp_reports_missing_config
    (c : Firebase.FirebaseOptions) (rt : Firebase.Runtime)
    (Hfirst : Firebase.appInstance rt = None) :
  (forall k, In k (Firebase.missingKeys c)
             <-> exists v, In (k, v) (Firebase.entries c) /\ (v = None \/ v = Some []))
  /\ Firebase.missingKeys c `sublist_of` List.map fst (Firebase.entries c)
  /\ (Firebase.missingKeys c <> [] ->
        Firebase.ensureApp c rt
        = (Firebase.Thrown (Firebase.missingConfigMessage (Firebase.missingKeys c)), rt))
  /\ (Firebase.missingKeys c = [] ->
        let app := match Firebase.sdkApp rt with
                   | Some existing => existing
                   | None => {| Firebase.options := c |}
                   end in
        Firebase.ensureApp c rt
        = (Firebase.Returned app,
           {| Firebase.appInstance := Some app; Firebase.sdkApp := Some app |})).
Proof.
  split; [|split; [|split]].
  - intros k. unfold Firebase.missingKeys. rewrite List.in_map_iff. split.
    + intros ([k' v] & <- & Hin). apply List.filter_In in Hin as [Hin Hf].
      exists v. split; [done|]. by apply falsy_true.
    + intros (v & Hin & Hv). exists (k, v). split; [done|].
      apply List.filter_In. split; [done|]. by apply falsy_true.
  - unfold Firebase.missingKeys. generalize (Firebase.entries c). intros l.
    induction l as [|x r IH]; simpl; [constructor|].
    destruct (Firebase.falsy (snd x)); by constructor.
  - intros Hne. unfold Firebase.ensureApp. rewrite Hfirst, length_eqb_nil.
    by destruct (Firebase.missingKeys c).
  - intros Hnone. unfold Firebase.ensureApp. by rewrite Hfirst, Hnone.
Qed.

Lemma ensureApp_reports_missing_config_witness :
  let c := {| Firebase.apiKey := None; Firebase.authDomain := Some (js "fam.example");
              Firebase.projectId := Some (js "fam"); Firebase.storageBucket := Some [];
              Firebase.messagingSenderId := Some (js "1"); Firebase.appId := Some (js "a") |} in
  let rt := {| Firebase.appInstance := None; Firebase.sdkApp := None |} in
  Firebase.ensureApp c rt
  = (Firebase.Thrown
       (js "Missing Firebase config. Add these env vars: apiKey, storageBucket (prefixed with EXPO_PUBLIC_)"),
     rt).
Proof.
  intros c rt.
  refine (proj1 (proj2 (proj2 (ensureApp_reports_missing_config c rt eq_refl))) _).
  discriminate.
Defined.

(** X27: once a call has returned an app, every later call returns the
    same app and leaves the runtime as it is, whatever the
    configuration then is: the configuration is not read again. *)
Theorem ensureApp_keeps_the_first_app
    (c : Firebase.FirebaseOptions) (rt rt' : Firebase.Runtime) (app : Firebase.FirebaseApp)
    (Hret : Firebase.ensureApp c rt = (Firebase.Returned app, rt')) :
  Firebase.appInstance rt' = Some app
  /\ forall c', Firebase.ensureApp c' rt' = (Firebase.Returned app, rt').
Proof.
  assert (Firebase.appInstance rt' = Some app) as Hinst.
  { unfold Firebase.ensureApp in Hret.
    destruct (Firebase.appInstance rt) as [a|] eqn:E.
    - injection Hret as <- <-. done.
    - destruct (negb _); [done|]. injection Hret as <- <-. done. }
  split; [exact Hinst|].
  intros c'. unfold Firebase.ensureApp. by rewrite Hinst.
Qed.

Lemma ensureApp_keeps_the_first_app_witness :
  let c := {| Firebase.apiKey := Some (js "k"); Firebase.authDomain := Some (js "fam.example");
              Firebase.projectId := Some (js "fam"); Firebase.storageBucket := Some (js "b");
              Firebase.messagingSenderId := Some (js "1"); Firebase.appId := Some (js "a") |} in
  let none := {| Firebase.apiKey := None; Firebase.authDomain := None;
                 Firebase.projectId := None; Firebase.storageBucket := None;
                 Firebase.messagingSenderId := None; Firebase.appId := None |} in
  let app := {| Firebase.options := c |} in
  let rt' := {| Firebase.appInstance := Some app; Firebase.sdkApp := Some app |} in
  Firebase.ensureApp none rt' = (Firebase.Returned app, rt').
Proof.
  intros c none app rt'.
  exact (proj2 (ensureApp_keeps_the_first_app c
                  {| Firebase.appInstance := None; Firebase.sdkApp := None |} rt' app eq_refl)
           none).
Defined.
